(** * Two-pointer algorithms of [two_pointer.py]: a shallow embedding

    The Python functions are embedded as Rocq functions.  Python integers
    are [Z], Python lists are [list], the [set] of characters is a [gset],
    and the linked-list nodes live in a store ([gmap]) addressed by
    locations, so that the [next] relation may form a ring.

    Every [while] loop is a [Fixpoint] on a fuel argument: running out of
    fuel is the outcome [OutOfFuel], a Python exception is [Raise], and a
    normal return is [Ok].  "The call returns [v]" is [returns run v]: with
    enough fuel the outcome is [Ok v]. *)

From Stdlib Require Import ZArith Lia Sorted Permutation Ascii String.
From stdpp Require Import gmap strings list fin_maps.

Local Open Scope Z_scope.

(** ** Outcomes of a call *)

Inductive exn : Set := IndexError | KeyError | AttributeError.

Inductive res (A : Type) : Type :=
  | Ok (a : A)
  | Raise (e : exn)
  | OutOfFuel.
Arguments Ok {A} a.
Arguments Raise {A} e.
Arguments OutOfFuel {A}.

Definition res_bind {A B} (f : A → res B) (m : res A) : res B :=
  match m with
  | Ok a => f a
  | Raise e => Raise e
  | OutOfFuel => OutOfFuel
  end.

Global Instance res_mret : MRet res := λ A a, Ok a.
Global Instance res_mbind : MBind res := λ A B f m, res_bind f m.

(** [returns run v]: the call modelled by [run] terminates and returns [v]. *)
Definition returns {A} (run : nat → res A) (v : A) : Prop :=
  ∃ n : nat, ∀ fuel : nat, (n ≤ fuel)%nat → run fuel = Ok v.

(** [diverges run]: no amount of fuel lets the call finish. *)
Definition diverges {A} (run : nat → res A) : Prop :=
  ∀ fuel : nat, run fuel = OutOfFuel.

(** ** Python sequences *)

Definition len {A} (l : list A) : Z := Z.of_nat (length l).

(** [l[i]]: a negative index counts from the end, anything outside
    [-len(l) .. len(l)-1] raises [IndexError]. *)
Definition getitem {A} (l : list A) (i : Z) : res A :=
  let k := if 0 <=? i then i else len l + i in
  if (0 <=? k) && (k <? len l) then
    match l !! Z.to_nat k with
    | Some x => Ok x
    | None => Raise IndexError
    end
  else Raise IndexError.

(** [l[i] = x] *)
Definition setitem {A} (l : list A) (i : Z) (x : A) : res (list A) :=
  let k := if 0 <=? i then i else len l + i in
  if (0 <=? k) && (k <? len l) then Ok (<[Z.to_nat k := x]> l)
  else Raise IndexError.

(** [l[i:]]: slices never raise; the start is clamped to [0 .. len(l)]. *)
Definition slice_from {A} (l : list A) (i : Z) : list A :=
  let k := if 0 <=? i then i else Z.max 0 (len l + i) in
  drop (Z.to_nat k) l.

(** [range(lo, hi)] *)
Definition range (lo hi : Z) : list Z :=
  (λ k : nat, lo + Z.of_nat k) <$> seq 0 (Z.to_nat (hi - lo)).

(** ** [merge_sorted_arrays] *)

Fixpoint merge_loop (fuel : nat) (arr1 arr2 : list Z) (i j : Z)
    (merged : list Z) : res (Z * Z * list Z) :=
  match fuel with
  | O => OutOfFuel
  | S fuel' =>
    if (i <? len arr1) && (j <? len arr2) then
      x ← getitem arr1 i;
      y ← getitem arr2 j;
      if x <? y then merge_loop fuel' arr1 arr2 (i + 1) j (merged ++ [x])
      else merge_loop fuel' arr1 arr2 i (j + 1) (merged ++ [y])
    else Ok (i, j, merged)
  end.

Definition merge_sorted_arrays (fuel : nat) (arr1 arr2 : list Z)
    : res (list Z) :=
  '(i, j, merged) ← merge_loop fuel arr1 arr2 0 0 [];
  Ok (merged ++ slice_from arr1 i ++ slice_from arr2 j).

(** The list the loop computes, by recursion on the two remainders. *)
Fixpoint merge_lists (a : list Z) : list Z → list Z :=
  fix inner (b : list Z) : list Z :=
    match a, b with
    | [], _ => b
    | _, [] => a
    | x :: a', y :: b' =>
      if x <? y then x :: merge_lists a' b else y :: inner b'
    end.

(** ** [two_sum_sorted] *)

Fixpoint two_sum_loop (fuel : nat) (arr : list Z) (target left right : Z)
    : res (option (Z * Z)) :=
  match fuel with
  | O => OutOfFuel
  | S fuel' =>
    if left <? right then
      x ← getitem arr left;
      y ← getitem arr right;
      let current_sum := x + y in
      if current_sum =? target then Ok (Some (x, y))
      else if current_sum <? target
        then two_sum_loop fuel' arr target (left + 1) right
        else two_sum_loop fuel' arr target left (right - 1)
    else Ok None
  end.

Definition two_sum_sorted (fuel : nat) (arr : list Z) (target : Z)
    : res (option (Z * Z)) :=
  two_sum_loop fuel arr target 0 (len arr - 1).

(** ** [for] loops over a range: the body runs once per index, in order *)

Fixpoint for_each {S : Type} (body : S → Z → res S) (st : S) (idx : list Z)
    : res S :=
  match idx with
  | [] => Ok st
  | i :: idx' => st' ← body st i; for_each body st' idx'
  end.

(** ** [remove_duplicates]: the state is the list (mutated in place) and
    [write_index]; the call returns the new length and leaves the list. *)

Definition remove_duplicates_body (st : list Z * Z) (i : Z)
    : res (list Z * Z) :=
  let '(arr, write_index) := st in
  x ← getitem arr i;
  p ← getitem arr (i - 1);
  if bool_decide (x ≠ p) then
    arr' ← setitem arr write_index x;
    Ok (arr', write_index + 1)
  else Ok (arr, write_index).

Definition remove_duplicates (arr : list Z) : res (Z * list Z) :=
  match arr with
  | [] => Ok (0, arr)
  | _ =>
    '(arr', write_index) ←
      for_each remove_duplicates_body (arr, 1) (range 1 (len arr));
    Ok (write_index, arr')
  end.

(** ** [reverse_string] *)

Fixpoint reverse_loop (fuel : nat) (s : list ascii) (left right : Z)
    : res (list ascii) :=
  match fuel with
  | O => OutOfFuel
  | S fuel' =>
    if left <? right then
      a ← getitem s right;
      b ← getitem s left;
      s1 ← setitem s left a;
      s2 ← setitem s1 right b;
      reverse_loop fuel' s2 (left + 1) (right - 1)
    else Ok s
  end.

Definition reverse_string (fuel : nat) (s : string) : res string :=
  let l := list_ascii_of_string s in
  l' ← reverse_loop fuel l 0 (len l - 1);
  Ok (string_of_list_ascii l').

(** ** [max_area] *)

Fixpoint max_area_loop (fuel : nat) (height : list Z) (left right best : Z)
    : res Z :=
  match fuel with
  | O => OutOfFuel
  | S fuel' =>
    if left <? right then
      let width := right - left in
      hl ← getitem height left;
      hr ← getitem height right;
      let current_area := Z.min hl hr * width in
      let best' := Z.max best current_area in
      if hl <? hr then max_area_loop fuel' height (left + 1) right best'
      else max_area_loop fuel' height left (right - 1) best'
    else Ok best
  end.

Definition max_area (fuel : nat) (height : list Z) : res Z :=
  max_area_loop fuel height 0 (len height - 1) 0.

(** ** [length_of_longest_substring] *)

(** The inner [while s[right] in char_set] loop; [set.remove] raises
    [KeyError] on a missing element. *)
Fixpoint shrink_loop (fuel : nat) (s : list ascii) (right : Z)
    (char_set : gset ascii) (left : Z) : res (gset ascii * Z) :=
  match fuel with
  | O => OutOfFuel
  | S fuel' =>
    c ← getitem s right;
    if bool_decide (c ∈ char_set) then
      d ← getitem s left;
      if bool_decide (d ∈ char_set)
      then shrink_loop fuel' s right (char_set ∖ {[d]}) (left + 1)
      else Raise KeyError
    else Ok (char_set, left)
  end.

Definition longest_body (fuel : nat) (s : list ascii)
    (st : gset ascii * Z * Z) (right : Z) : res (gset ascii * Z * Z) :=
  let '(char_set, left0, max_length) := st in
  '(char_set1, left1) ← shrink_loop fuel s right char_set left0;
  c ← getitem s right;
  Ok (char_set1 ∪ {[c]}, left1, Z.max max_length (right - left1 + 1)).

Definition length_of_longest_substring (fuel : nat) (s : string) : res Z :=
  let l := list_ascii_of_string s in
  '(_, _, max_length) ←
    for_each (longest_body fuel l) (∅, 0, 0) (range 0 (len l));
  Ok max_length.

(** ** Singly-linked nodes in a store *)

Abbreviation loc := nat (only parsing).

Record ListNode : Set := mkNode { val : Z; next : option loc }.

(** A reference is [None] (Python's [None]) or the location of a node. *)
Abbreviation ref := (option loc) (only parsing).
Abbreviation store := (gmap loc ListNode) (only parsing).

(** [r.next]: [None] has no attribute [next].  A location outside the store
    has no counterpart in Python; the model raises there too, and the
    theorems assume a closed store. *)
Definition get_next (h : store) (r : ref) : res ref :=
  match r with
  | None => Raise AttributeError
  | Some p =>
    match h !! p with
    | Some nd => Ok (next nd)
    | None => Raise AttributeError
    end
  end.

(** Truth value of a reference: a node object is true, [None] is false. *)
Definition truthy (r : ref) : bool :=
  match r with Some _ => true | None => false end.

(** The loop test [fast and fast.next] (short-circuit [and]). *)
Definition fast_can_step (h : store) (fast : ref) : res bool :=
  if truthy fast then fn ← get_next h fast; Ok (truthy fn) else Ok false.

(** ** [has_cycle] *)

Fixpoint has_cycle_loop (fuel : nat) (h : store) (slow fast : ref)
    : res bool :=
  match fuel with
  | O => OutOfFuel
  | S fuel' =>
    go ← fast_can_step h fast;
    if go : bool then
      slow' ← get_next h slow;
      fn ← get_next h fast;
      fast' ← get_next h fn;
      if bool_decide (slow' = fast') then Ok true
      else has_cycle_loop fuel' h slow' fast'
    else Ok false
  end.

Definition has_cycle (fuel : nat) (h : store) (head : ref) : res bool :=
  has_cycle_loop fuel h head head.

(** ** [find_middle] *)

Fixpoint find_middle_loop (fuel : nat) (h : store) (slow fast : ref)
    : res ref :=
  match fuel with
  | O => OutOfFuel
  | S fuel' =>
    go ← fast_can_step h fast;
    if go : bool then
      slow' ← get_next h slow;
      fn ← get_next h fast;
      fast' ← get_next h fn;
      find_middle_loop fuel' h slow' fast'
    else Ok slow
  end.

Definition find_middle (fuel : nat) (h : store) (head : ref) : res ref :=
  find_middle_loop fuel h head head.

(** ** [detect_cycle_start] *)

(** First loop: [Some slow] when it leaves by [break] at the meeting point,
    [None] when the loop test fails (the [else] branch of the [while]). *)
Fixpoint meet_loop (fuel : nat) (h : store) (slow fast : ref)
    : res (option ref) :=
  match fuel with
  | O => OutOfFuel
  | S fuel' =>
    go ← fast_can_step h fast;
    if go : bool then
      slow' ← get_next h slow;
      fn ← get_next h fast;
      fast' ← get_next h fn;
      if bool_decide (slow' = fast') then Ok (Some slow')
      else meet_loop fuel' h slow' fast'
    else Ok None
  end.

(** Second loop: [while start != slow]. *)
Fixpoint start_loop (fuel : nat) (h : store) (start slow : ref) : res ref :=
  match fuel with
  | O => OutOfFuel
  | S fuel' =>
    if bool_decide (start ≠ slow) then
      start' ← get_next h start;
      slow' ← get_next h slow;
      start_loop fuel' h start' slow'
    else Ok start
  end.

Definition detect_cycle_start (fuel : nat) (h : store) (head : ref)
    : res ref :=
  m ← meet_loop fuel h head head;
  match m with
  | None => Ok None
  | Some slow => start_loop fuel h head slow
  end.

(** ** Auxiliary notions used to state and prove the properties *)

(** What the [remove_duplicates] loop writes: the first element, then every
    element that differs from its predecessor. *)
Fixpoint compress_from (prev : Z) (l : list Z) : list Z :=
  match l with
  | [] => []
  | x :: l' =>
    if bool_decide (x ≠ prev) then x :: compress_from x l'
    else compress_from x l'
  end.

Definition compress (l : list Z) : list Z :=
  match l with
  | [] => []
  | x :: l' => x :: compress_from x l'
  end.

(** State of the [remove_duplicates] loop when the indices below [i] have
    been read: the compressed prefix followed by the untouched rest. *)
Definition dedup_state (orig : list Z) (i : nat) : list Z * Z :=
  let pre := compress (take i orig) in
  (pre ++ drop (length pre) orig, Z.of_nat (length pre)).

(** [window l i n]: the contiguous piece of [l] that starts at index [i]
    and has (at most) [n] elements. *)
Definition window {A} (l : list A) (i n : nat) : list A := take n (drop i l).

(** Invariant of the [for] loop of [length_of_longest_substring] before it
    handles index [r]: the window [lo .. r) has no repeated character and
    is the longest such window ending at [r]; [char_set] holds its
    characters; and [max_length] is the largest length of a window without
    repetition inside [l[0 .. r)]. *)
Definition longest_inv (l : list ascii) (r : nat)
    (st : gset ascii * Z * Z) : Prop :=
  ∃ lo m : nat,
    st = (list_to_set (window l lo (r - lo)), Z.of_nat lo, Z.of_nat m) ∧
    (lo ≤ r)%nat ∧
    NoDup (window l lo (r - lo)) ∧
    (∀ i, (i < lo)%nat → ¬ NoDup (window l i (r - i))) ∧
    (∃ i, (i + m ≤ r)%nat ∧ NoDup (window l i m)) ∧
    (∀ i n, (i + n ≤ r)%nat → NoDup (window l i n) → (n ≤ m)%nat).

(** A reference is valid in a store when it is [None] or the location of a
    node of the store; a store is closed when every [next] field is valid.
    Python objects always form a closed store. *)
Definition valid (h : store) (r : ref) : Prop :=
  match r with
  | None => True
  | Some p => is_Some (h !! p)
  end.

Global Instance valid_dec (h : store) (r : ref) : Decision (valid h r).
Proof. destruct r; apply _. Defined.

Definition closed (h : store) : Prop :=
  map_Forall (λ _ nd, valid h (next nd)) h.

Global Instance closed_dec (h : store) : Decision (closed h).
Proof. apply _. Defined.

(** Following the [next] link, as a pure function: off the end of the list
    one stays at [None]. *)
Definition follow (h : store) (r : ref) : ref :=
  p ← r; nd ← h !! p; next nd.

(** The reference reached from [r] after [k] links. *)
Definition walk (h : store) (k : nat) (r : ref) : ref :=
  Nat.iter k (follow h) r.

(** A node lies on a cycle when following at least one link leads back. *)
Definition on_cycle (h : store) (p : loc) : Prop :=
  ∃ k : nat, (0 < k)%nat ∧ walk h k (Some p) = Some p.

(** Some node reachable from [head] lies on a cycle. *)
Definition cyclic (h : store) (head : ref) : Prop :=
  ∃ (k : nat) (p : loc), walk h k head = Some p ∧ on_cycle h p.

(** [e] is the first node on a cycle met when walking from [head]. *)
Definition cycle_entry (h : store) (head : ref) (e : loc) : Prop :=
  ∃ mu : nat,
    walk h mu head = Some e ∧ on_cycle h e ∧
    ∀ (k : nat) (q : loc),
      (k < mu)%nat → walk h k head = Some q → ¬ on_cycle h q.

(** [head] is the first node of the acyclic list made of [nodes], in order. *)
Fixpoint is_list (h : store) (head : ref) (nodes : list loc) : Prop :=
  match nodes with
  | [] => head = None
  | p :: rest =>
    head = Some p ∧ ∃ nd, h !! p = Some nd ∧ is_list h (next nd) rest
  end.

(** Stores of the unit tests: [3 → 2 → 0 → -4 → (back to 2)], the list
    [1 → 2], the lists [1 → 2 → 3 → 4 → 5] and [1 → 2 → 3 → 4], and a single
    node whose [next] is itself. *)
Definition store_ring : store :=
  list_to_map [(0, mkNode 3 (Some 1)); (1, mkNode 2 (Some 2));
               (2, mkNode 0 (Some 3)); (3, mkNode (-4) (Some 1))]%nat.

Definition store_two : store :=
  list_to_map [(0, mkNode 1 (Some 1)); (1, mkNode 2 None)]%nat.

Definition store_five : store :=
  list_to_map [(0, mkNode 1 (Some 1)); (1, mkNode 2 (Some 2));
               (2, mkNode 3 (Some 3)); (3, mkNode 4 (Some 4));
               (4, mkNode 5 None)]%nat.

Definition store_four : store :=
  list_to_map [(0, mkNode 1 (Some 1)); (1, mkNode 2 (Some 2));
               (2, mkNode 3 (Some 3)); (3, mkNode 4 None)]%nat.

Definition store_self : store :=
  list_to_map [(0, mkNode 7 (Some 0))]%nat.

(** ** Proof tactics *)

(** Decide the integer comparisons of the goal, closing the impossible
    branches by arithmetic. *)
Ltac zbool :=
  repeat (match goal with
          | |- context [?a <=? ?b] => destruct (Z.leb_spec a b)
          | |- context [?a <? ?b] => destruct (Z.ltb_spec a b)
          | |- context [?a =? ?b] => destruct (Z.eqb_spec a b)
          | _ : context [?a <=? ?b] |- _ => destruct (Z.leb_spec a b)
          | _ : context [?a <? ?b] |- _ => destruct (Z.ltb_spec a b)
          | _ : context [?a =? ?b] |- _ => destruct (Z.eqb_spec a b)
          end; cbv beta iota zeta in *; cbn [andb orb negb]; try lia).

(** Run the binds whose first computation is already an outcome. *)
Ltac run_bind := cbn [mbind res_mbind res_bind mret res_mret].

(** State of the [reverse_string] loop after [k] swaps on the characters
    [l]: the [k] outermost positions on each side hold the mirrored
    characters and the middle is untouched. *)
Definition reverse_inv (l : list ascii) (k : nat) (s : list ascii) : Prop :=
  length s = length l ∧
  ∀ i : nat,
    (i < length l)%nat →
    s !! i = if decide (i < k ∨ length l - k ≤ i)%nat
             then l !! (length l - 1 - i)%nat else l !! i.

(** * Properties *)

(** ** Outcomes and sequences *)

Lemma returns_const {A} (r : res A) (v : A) :
  r = Ok v → returns (λ _, r) v.
Proof. intros ->. by exists 0%nat. Qed.

Lemma returns_from {A} (run : nat → res A) (v : A) (n : nat) :
  (∀ fuel, (n ≤ fuel)%nat → run fuel = Ok v) → returns run v.
Proof. intros H. by exists n. Qed.

Lemma returns_inj {A} (run : nat → res A) (v w : A) :
  returns run v → returns run w → v = w.
Proof.
  intros [n Hn] [m Hm].
  specialize (Hn (n `max` m)%nat ltac:(lia)).
  specialize (Hm (n `max` m)%nat ltac:(lia)).
  congruence.
Qed.

Lemma diverges_not_returns {A} (run : nat → res A) (v : A) :
  diverges run → ¬ returns run v.
Proof. intros Hd [n Hn]. specialize (Hn n (le_n _)). by rewrite Hd in Hn. Qed.

Lemma getitem_nat {A} (l : list A) (k : nat) (x : A) :
  l !! k = Some x → getitem l (Z.of_nat k) = Ok x.
Proof.
  intros Hk. pose proof (lookup_lt_Some _ _ _ Hk) as Hlt.
  unfold getitem, len. zbool. by rewrite Nat2Z.id, Hk.
Qed.

Lemma getitem_in_range {A} (l : list A) (i : Z) :
  0 ≤ i < len l → ∃ x, l !! Z.to_nat i = Some x ∧ getitem l i = Ok x.
Proof.
  intros Hi. unfold len in Hi.
  destruct (lookup_lt_is_Some_2 l (Z.to_nat i)) as [x Hx]; [lia|].
  exists x. split; [done|].
  rewrite <- (Z2Nat.id i) by lia. by apply getitem_nat.
Qed.

Lemma setitem_nat {A} (l : list A) (k : nat) (x : A) :
  (k < length l)%nat → setitem l (Z.of_nat k) x = Ok (<[k := x]> l).
Proof.
  intros Hlt. unfold setitem, len. zbool. by rewrite Nat2Z.id.
Qed.

Lemma slice_from_nat {A} (l : list A) (k : nat) :
  slice_from l (Z.of_nat k) = drop k l.
Proof.
  unfold slice_from. zbool. by rewrite Nat2Z.id.
Qed.

Lemma range_nat (lo n : nat) :
  range (Z.of_nat lo) (Z.of_nat (lo + n)) = Z.of_nat <$> seq lo n.
Proof.
  unfold range. replace (Z.to_nat (Z.of_nat (lo + n) - Z.of_nat lo)) with n by lia.
  replace (seq lo n) with (Nat.add lo <$> seq 0 n)
    by (rewrite fmap_add_seq; f_equal; lia).
  rewrite <- list_fmap_compose.
  apply list_fmap_ext. intros _ k _. simpl. lia.
Qed.

(** ** [merge_sorted_arrays] *)

Lemma merge_lists_nil_l (b : list Z) : merge_lists [] b = b.
Proof. by destruct b. Qed.

Lemma merge_lists_nil_r (a : list Z) : merge_lists a [] = a.
Proof. by destruct a. Qed.

Lemma merge_lists_cons (x y : Z) (a' b' : list Z) :
  merge_lists (x :: a') (y :: b') =
  if x <? y then x :: merge_lists a' (y :: b')
  else y :: merge_lists (x :: a') b'.
Proof. reflexivity. Qed.

(** One turn of the loop when both cursors are inside their lists. *)
Lemma merge_loop_step (fuel : nat) (a b : list Z) (i j : Z)
    (merged : list Z) (x y : Z) :
  0 ≤ i < len a → 0 ≤ j < len b →
  getitem a i = Ok x → getitem b j = Ok y →
  merge_loop (S fuel) a b i j merged =
  if x <? y then merge_loop fuel a b (i + 1) j (merged ++ [x])
  else merge_loop fuel a b i (j + 1) (merged ++ [y]).
Proof.
  intros Hi Hj Hx Hy. cbn [merge_loop]. rewrite Hx, Hy. run_bind.
  zbool; reflexivity.
Qed.

Lemma merge_loop_exit (fuel : nat) (a b : list Z) (i j : Z)
    (merged : list Z) :
  len a ≤ i ∨ len b ≤ j →
  merge_loop (S fuel) a b i j merged = Ok (i, j, merged).
Proof. intros Hij. cbn [merge_loop]. zbool; reflexivity. Qed.

(** The loop, started at cursors [m] and [n], leaves a state whose
    completion by the two [extend] calls is the merge of the remainders. *)
Lemma merge_loop_spec (a b : list Z) (fuel : nat) :
  ∀ (m n : nat) (merged : list Z),
    (m ≤ length a)%nat → (n ≤ length b)%nat →
    (length a - m + (length b - n) < fuel)%nat →
    ∃ i j merged',
      merge_loop fuel a b (Z.of_nat m) (Z.of_nat n) merged
        = Ok (i, j, merged') ∧
      merged' ++ slice_from a i ++ slice_from b j
        = merged ++ merge_lists (drop m a) (drop n b).
Proof.
  induction fuel as [|fuel IH]; intros m n merged Hm Hn Hfuel; [lia|].
  destruct (decide (m < length a ∧ n < length b)%nat) as [[Hma Hnb]|Hout].
  - destruct (lookup_lt_is_Some_2 a m Hma) as [x Hx].
    destruct (lookup_lt_is_Some_2 b n Hnb) as [y Hy].
    rewrite (merge_loop_step fuel a b _ _ merged x y)
      by (unfold len; auto using getitem_nat; lia).
    rewrite (drop_S a x m Hx), (drop_S b y n Hy), merge_lists_cons.
    destruct (x <? y).
    + replace (Z.of_nat m + 1) with (Z.of_nat (S m)) by lia.
      destruct (IH (S m) n (merged ++ [x])) as (i & j & merged' & Hrun & Hout);
        [lia..|].
      exists i, j, merged'. split; [done|].
      by rewrite Hout, <- (drop_S b y n Hy), <- app_assoc.
    + replace (Z.of_nat n + 1) with (Z.of_nat (S n)) by lia.
      destruct (IH m (S n) (merged ++ [y])) as (i & j & merged' & Hrun & Hout);
        [lia..|].
      exists i, j, merged'. split; [done|].
      by rewrite Hout, <- (drop_S a x m Hx), <- app_assoc.
  - exists (Z.of_nat m), (Z.of_nat n), merged. split.
    + apply merge_loop_exit. unfold len. lia.
    + rewrite !slice_from_nat. f_equal.
      destruct (decide (m < length a)%nat) as [Hma|Hma].
      * rewrite (drop_ge b n) by lia.
        by rewrite merge_lists_nil_r, app_nil_r.
      * rewrite (drop_ge a m) by lia. by rewrite merge_lists_nil_l.
Qed.

Lemma merge_sorted_arrays_returns (a b : list Z) :
  returns (λ fuel, merge_sorted_arrays fuel a b) (merge_lists a b).
Proof.
  apply (returns_from _ _ (S (length a + length b))). intros fuel Hfuel.
  destruct (merge_loop_spec a b fuel 0 0 []) as (i & j & merged & Hrun & Hout);
    [lia..|].
  unfold merge_sorted_arrays. change (Z.of_nat 0) with 0 in Hrun.
  rewrite Hrun. cbn. by rewrite Hout.
Qed.

Lemma merge_lists_length (a b : list Z) :
  length (merge_lists a b) = (length a + length b)%nat.
Proof.
  revert b. induction a as [|x a' IHa]; intros b;
    [by rewrite merge_lists_nil_l|].
  induction b as [|y b' IHb]; [cbn; lia|].
  rewrite merge_lists_cons. destruct (x <? y); cbn [length].
  - rewrite IHa. cbn [length]. lia.
  - rewrite IHb. cbn [length]. lia.
Qed.

Lemma merge_lists_perm (a b : list Z) : merge_lists a b ≡ₚ a ++ b.
Proof.
  revert b. induction a as [|x a' IHa]; intros b;
    [by rewrite merge_lists_nil_l|].
  induction b as [|y b' IHb]; [by rewrite merge_lists_nil_r, app_nil_r|].
  rewrite merge_lists_cons. destruct (x <? y).
  - by rewrite IHa.
  - rewrite IHb. by rewrite <- Permutation_middle.
Qed.

Lemma merge_lists_Forall (P : Z → Prop) (a b : list Z) :
  Forall P a → Forall P b → Forall P (merge_lists a b).
Proof.
  intros Ha Hb. rewrite merge_lists_perm. by apply Forall_app.
Qed.

Lemma merge_lists_sorted (a b : list Z) :
  StronglySorted Z.le a → StronglySorted Z.le b →
  StronglySorted Z.le (merge_lists a b).
Proof.
  revert b. induction a as [|x a' IHa]; intros b Ha Hb;
    [by rewrite merge_lists_nil_l|].
  induction b as [|y b' IHb]; [by rewrite merge_lists_nil_r|].
  rewrite merge_lists_cons.
  apply StronglySorted_inv in Ha as [Ha' Hxa].
  pose proof Hb as Hb0. apply StronglySorted_inv in Hb as [Hb' Hyb].
  destruct (Z.ltb_spec x y) as [Hlt|Hge].
  - constructor; [by apply IHa|].
    apply merge_lists_Forall; [done|].
    constructor; [lia|]. eapply Forall_impl; [exact Hyb|]. intros z Hz. cbn in *. lia.
  - constructor; [by apply IHb|].
    apply merge_lists_Forall; [|done].
    constructor; [lia|]. eapply Forall_impl; [exact Hxa|]. intros z Hz. cbn in *. lia.
Qed.

(** C1 (as stated, refuted): on a tie the loop does not take the element of
    the left list.  With [arr1 = [1]] and [arr2 = [1]] the loop ends with the
    cursor of [arr1] still at 0 and the cursor of [arr2] at 1; and merging
    [[5; 0]] with [[5]] gives [[5; 5; 0]], which is not 5 followed by the
    merge of [[0]] with [[5]]. *)
Lemma merge_tie_left_counterexample :
  merge_loop 2 [1] [1] 0 0 [] = Ok (0, 1, [1]) ∧
  ∃ out out',
    returns (λ fuel, merge_sorted_arrays fuel [5; 0] [5]) out ∧
    returns (λ fuel, merge_sorted_arrays fuel [0] [5]) out' ∧
    out ≠ 5 :: out'.
Proof.
  split; [reflexivity|].
  exists [5; 5; 0], [0; 5]. split; [|split].
  - apply (merge_sorted_arrays_returns [5; 0] [5]).
  - apply (merge_sorted_arrays_returns [0] [5]).
  - discriminate.
Qed.

(** C1 (amended): whenever the elements under the two cursors are equal, the
    loop appends the element of the right list [arr2] and advances the cursor
    of [arr2] (the test is [arr1[i] < arr2[j]], so ties favour [arr2]);
    equivalently, merging [x :: a'] with [y :: b'] when [x = y] returns [y]
    followed by the merge of [x :: a'] with [b']. *)
Theorem merge_tie_takes_right :
  (∀ (fuel : nat) (a b merged : list Z) (i j x y : Z),
      0 ≤ i < len a → 0 ≤ j < len b →
      getitem a i = Ok x → getitem b j = Ok y → x = y →
      merge_loop (S fuel) a b i j merged
        = merge_loop fuel a b i (j + 1) (merged ++ [y])) ∧
  (∀ (x y : Z) (a' b' : list Z),
      x = y →
      ∃ out',
        returns (λ fuel, merge_sorted_arrays fuel (x :: a') b') out' ∧
        returns (λ fuel, merge_sorted_arrays fuel (x :: a') (y :: b'))
          (y :: out')).
Proof.
  split.
  - intros fuel a b merged i j x y Hi Hj Hx Hy ->.
    rewrite (merge_loop_step fuel a b i j merged y y) by done.
    by rewrite Z.ltb_irrefl.
  - intros x y a' b' ->. exists (merge_lists (y :: a') b'). split.
    + apply merge_sorted_arrays_returns.
    + replace (y :: merge_lists (y :: a') b')
        with (merge_lists (y :: a') (y :: b'))
        by (by rewrite merge_lists_cons, Z.ltb_irrefl).
      apply merge_sorted_arrays_returns.
Qed.

(** The statement above on concrete lists with a tie. *)
Lemma merge_tie_takes_right_witness :
  merge_loop 3 [1; 2] [1] 0 0 [] = merge_loop 2 [1; 2] [1] 0 1 [1] ∧
  ∃ out',
    returns (λ fuel, merge_sorted_arrays fuel [5; 0] []) out' ∧
    returns (λ fuel, merge_sorted_arrays fuel [5; 0] [5]) (5 :: out').
Proof.
  split.
  - apply (proj1 merge_tie_takes_right 2%nat [1; 2] [1] [] 0 0 1 1);
      [by vm_compute | by vm_compute | reflexivity | reflexivity | reflexivity].
  - apply (proj2 merge_tie_takes_right 5 5 [0] []). reflexivity.
Defined.

(** C5: for all lists [a] and [b], [merge_sorted_arrays] returns a list of
    length [len(a) + len(b)]; when [a] and [b] are both sorted ascending,
    the returned list is sorted ascending. *)
Theorem merge_length_and_sorted (a b : list Z) :
  ∃ out,
    returns (λ fuel, merge_sorted_arrays fuel a b) out ∧
    length out = (length a + length b)%nat ∧
    (Sorted Z.le a → Sorted Z.le b → Sorted Z.le out).
Proof.
  exists (merge_lists a b). split; [|split].
  - apply merge_sorted_arrays_returns.
  - apply merge_lists_length.
  - intros Ha Hb. apply StronglySorted_Sorted, merge_lists_sorted.
    + apply Sorted_StronglySorted; [intros ???; lia | done].
    + apply Sorted_StronglySorted; [intros ???; lia | done].
Qed.

(** The statement above on the inputs of the unit tests. *)
Lemma merge_length_and_sorted_witness :
  ∃ out,
    returns (λ fuel, merge_sorted_arrays fuel [1; 3; 5] [2; 4; 6]) out ∧
    length out = 6%nat ∧ Sorted Z.le out.
Proof.
  destruct (merge_length_and_sorted [1; 3; 5] [2; 4; 6])
    as (out & Hret & Hlen & Hsorted).
  exists out. split; [exact Hret|]. split; [exact Hlen|].
  apply Hsorted; repeat constructor; lia.
Defined.

(** C10: for all lists [a] and [b], sorted or not, the list returned by
    [merge_sorted_arrays] is a permutation of [a ++ b]: every value occurs in
    it as many times as in [a] and [b] together. *)
Theorem merge_permutation (a b : list Z) :
  ∃ out,
    returns (λ fuel, merge_sorted_arrays fuel a b) out ∧
    Permutation out (a ++ b) ∧
    ∀ x : Z,
      count_occ Z.eq_dec out x
        = (count_occ Z.eq_dec a x + count_occ Z.eq_dec b x)%nat.
Proof.
  exists (merge_lists a b). split; [|split].
  - apply merge_sorted_arrays_returns.
  - apply merge_lists_perm.
  - intros x. rewrite <- count_occ_app.
    apply Permutation_count_occ, merge_lists_perm.
Qed.

(** ** [two_sum_sorted] *)

Lemma StronglySorted_lookup_le (arr : list Z) (i j : nat) (x y : Z) :
  StronglySorted Z.le arr → (i ≤ j)%nat →
  arr !! i = Some x → arr !! j = Some y → x ≤ y.
Proof.
  intros Hs. revert i j. induction Hs as [|a l Hs IH Hall]; intros i j Hij Hi Hj.
  - by rewrite lookup_nil in Hi.
  - destruct i as [|i], j as [|j]; simpl in Hi, Hj.
    + simplify_eq. lia.
    + simplify_eq. rewrite Forall_forall in Hall. apply Hall.
      by eapply list_elem_of_lookup_2.
    + lia.
    + apply (IH i j); [lia|done..].
Qed.

Lemma Sorted_lookup_le (arr : list Z) (i j : nat) (x y : Z) :
  Sorted Z.le arr → (i ≤ j)%nat →
  arr !! i = Some x → arr !! j = Some y → x ≤ y.
Proof.
  intros Hs. apply StronglySorted_lookup_le.
  apply Sorted_StronglySorted; [intros ???; lia | done].
Qed.

(** The loop started on the window [left .. right]: it returns a pair of
    values at two indices of the window that sum to [target], or it returns
    [None] and the window holds no such pair. *)
Lemma two_sum_loop_spec (arr : list Z) (target : Z) :
  Sorted Z.le arr →
  ∀ (n : nat) (left right : Z),
    0 ≤ left → right < len arr → right - left ≤ Z.of_nat n →
    ∃ r,
      (∀ fuel, (n < fuel)%nat → two_sum_loop fuel arr target left right = Ok r) ∧
      match r with
      | Some (x, y) =>
        ∃ i j : nat, (i < j)%nat ∧ arr !! i = Some x ∧ arr !! j = Some y ∧
                     x + y = target
      | None =>
        ∀ (i j : nat) (x y : Z),
          left ≤ Z.of_nat i → (i < j)%nat → Z.of_nat j ≤ right →
          arr !! i = Some x → arr !! j = Some y → x + y ≠ target
      end.
Proof.
  intros Hsorted.
  induction n as [|n IH]; intros left right Hl Hr Hn;
    (destruct (Z.ltb_spec left right) as [Hlr|Hlr];
     [|exists None; split;
       [intros [|fuel] ?; [lia|]; cbn [two_sum_loop]; by zbool
       |intros; lia]]); [lia|].
  destruct (getitem_in_range arr left) as (x & Hx & Hgx); [lia|].
  destruct (getitem_in_range arr right) as (y & Hy & Hgy); [lia|].
  assert (Hstep : ∀ fuel,
    two_sum_loop (S fuel) arr target left right =
    if x + y =? target then Ok (Some (x, y))
    else if x + y <? target then two_sum_loop fuel arr target (left + 1) right
    else two_sum_loop fuel arr target left (right - 1)).
  { intros fuel. cbn [two_sum_loop]. rewrite Hgx, Hgy. run_bind.
    by zbool. }
  destruct (Z.eqb_spec (x + y) target) as [Heq|Hne].
  { exists (Some (x, y)). split.
    - intros [|fuel] ?; [lia|]. rewrite Hstep. by zbool.
    - exists (Z.to_nat left), (Z.to_nat right). repeat split; [lia|done..]. }
  destruct (Z.ltb_spec (x + y) target) as [Hlt|Hge].
  - destruct (IH (left + 1) right) as (r & Hrun & Hr'); [lia..|].
    exists r. split.
    { intros [|fuel] ?; [lia|]. rewrite Hstep. zbool. apply Hrun. lia. }
    destruct r as [[u v]|]; [done|].
    intros i j xi yj Hi Hij Hj Hxi Hyj.
    destruct (decide (Z.of_nat i = left)) as [<-|Hne'].
    + rewrite Nat2Z.id in Hx. simplify_eq.
      pose proof (Sorted_lookup_le arr j (Z.to_nat right) yj y Hsorted
                    ltac:(lia) Hyj Hy).
      lia.
    + eapply Hr'; [| | |done..]; lia.
  - destruct (IH left (right - 1)) as (r & Hrun & Hr'); [lia..|].
    exists r. split.
    { intros [|fuel] ?; [lia|]. rewrite Hstep. zbool. apply Hrun. lia. }
    destruct r as [[u v]|]; [done|].
    intros i j xi yj Hi Hij Hj Hxi Hyj.
    destruct (decide (Z.of_nat j = right)) as [<-|Hne'].
    + rewrite Nat2Z.id in Hy. simplify_eq.
      pose proof (Sorted_lookup_le arr (Z.to_nat left) i x xi Hsorted
                    ltac:(lia) Hx Hxi).
      lia.
    + eapply Hr'; [| | |done..]; lia.
Qed.

(** C4: for every list [arr] sorted ascending and every [target]: if two
    indices [i < j] of [arr] have [arr[i] + arr[j] = target], then
    [two_sum_sorted] returns a pair of values found at two distinct indices
    of [arr] whose sum is [target]; if there are no such indices, it returns
    [None]. *)
Theorem two_sum_sorted_correct (arr : list Z) (target : Z) :
  Sorted Z.le arr →
  ∃ r,
    returns (λ fuel, two_sum_sorted fuel arr target) r ∧
    ((∃ (i j : nat) (x y : Z),
         (i < j)%nat ∧ arr !! i = Some x ∧ arr !! j = Some y ∧
         x + y = target) →
     ∃ (x y : Z) (i j : nat),
       r = Some (x, y) ∧ i ≠ j ∧ arr !! i = Some x ∧ arr !! j = Some y ∧
       x + y = target) ∧
    ((¬ ∃ (i j : nat) (x y : Z),
         (i < j)%nat ∧ arr !! i = Some x ∧ arr !! j = Some y ∧
         x + y = target) →
     r = None).
Proof.
  intros Hsorted.
  destruct (two_sum_loop_spec arr target Hsorted (length arr) 0 (len arr - 1))
    as (r & Hrun & Hr); [unfold len; lia..|].
  exists r. split; [by apply (returns_from _ _ (S (length arr)))|]. split.
  - intros (i & j & x & y & Hij & Hi & Hj & Hsum).
    destruct r as [[u v]|].
    + destruct Hr as (i' & j' & Hij' & Hi' & Hj' & Hsum').
      exists u, v, i', j'. repeat split; [lia|done..].
    + exfalso. apply (Hr i j x y); [lia|done| |done..].
      apply lookup_lt_Some in Hj. unfold len. lia.
  - intros Hnone. destruct r as [[u v]|]; [|done].
    destruct Hr as (i' & j' & Hij' & Hi' & Hj' & Hsum').
    exfalso. apply Hnone. by exists i', j', u, v.
Qed.

(** The statement above on the inputs of the unit tests. *)
Lemma two_sum_sorted_correct_witness :
  (∃ x y : Z,
      returns (λ fuel, two_sum_sorted fuel [1; 2; 3; 4; 6] 6) (Some (x, y)) ∧
      x + y = 6) ∧
  returns (λ fuel, two_sum_sorted fuel [1; 2; 3] 7) None.
Proof.
  split.
  - destruct (two_sum_sorted_correct [1; 2; 3; 4; 6] 6)
      as (r & Hret & Hsome & _); [repeat constructor; lia|].
    destruct Hsome as (x & y & i & j & -> & _ & _ & _ & Hsum).
    + exists 1%nat, 3%nat, 2, 4. repeat split. lia.
    + by exists x, y.
  - destruct (two_sum_sorted_correct [1; 2; 3] 7)
      as (r & Hret & _ & Hnone); [repeat constructor; lia|].
    rewrite Hnone in Hret; [exact Hret|].
    intros (i & j & x & y & Hij & Hi & Hj & Hsum).
    destruct i as [|[|[|i]]], j as [|[|[|j]]]; cbn in Hi, Hj;
      simplify_eq; lia.
Defined.

(** ** [remove_duplicates] *)

Lemma default_last_cons (prev y : Z) (l : list Z) :
  default prev (last (y :: l)) = default y (last l).
Proof.
  revert prev y. induction l as [|z l IH]; intros prev y; [done|].
  by rewrite last_cons_cons, (IH prev z), (IH y z).
Qed.

Lemma compress_from_snoc (prev x : Z) (l : list Z) :
  compress_from prev (l ++ [x]) =
  compress_from prev l ++
    (if bool_decide (x ≠ default prev (last l)) then [x] else []).
Proof.
  revert prev. induction l as [|y l IH]; intros prev; cbn [compress_from app].
  - cbn. by destruct (bool_decide (x ≠ prev)).
  - rewrite IH.
    rewrite default_last_cons.
    by destruct (bool_decide (y ≠ prev)).
Qed.

Lemma compress_snoc (x p : Z) (l : list Z) :
  last l = Some p →
  compress (l ++ [x]) = compress l ++ (if bool_decide (x ≠ p) then [x] else []).
Proof.
  destruct l as [|y l]; [done|]. intros Hlast. cbn [compress app].
  rewrite compress_from_snoc. f_equal. f_equal.
  destruct l as [|z l]; [by simplify_eq/=|].
  rewrite last_cons_cons in Hlast. by rewrite Hlast.
Qed.

Lemma last_cons_default (x : Z) (l : list Z) :
  last (x :: l) = Some (default x (last l)).
Proof.
  revert x. induction l as [|y l IH]; intros x; [done|].
  by rewrite last_cons_cons, IH.
Qed.

Lemma compress_from_last (prev : Z) (l : list Z) :
  default prev (last (compress_from prev l)) = default prev (last l).
Proof.
  revert prev. induction l as [|x l IH]; intros prev; [done|].
  cbn [compress_from]. rewrite (default_last_cons prev x l).
  destruct (bool_decide_reflect (x ≠ prev)) as [Hne|Heq].
  - by rewrite default_last_cons, IH.
  - apply dec_stable in Heq. subst prev. apply IH.
Qed.

Lemma compress_last (l : list Z) : last (compress l) = last l.
Proof.
  destruct l as [|x l]; [done|]. cbn [compress].
  by rewrite !last_cons_default, compress_from_last.
Qed.

Lemma compress_from_length (prev : Z) (l : list Z) :
  (length (compress_from prev l) ≤ length l)%nat.
Proof.
  revert prev. induction l as [|x l IH]; intros prev; [done|].
  cbn [compress_from]. specialize (IH x).
  destruct (bool_decide (x ≠ prev)); cbn [length]; lia.
Qed.

Lemma compress_length (l : list Z) :
  (length (compress l) ≤ length l)%nat ∧
  (l ≠ [] → 1 ≤ length (compress l))%nat.
Proof.
  destruct l as [|x l]; [done|]. cbn [compress length].
  pose proof (compress_from_length x l). lia.
Qed.

(** One turn of the [for] loop at index [i]. *)
Lemma remove_duplicates_body_step (orig : list Z) (i : nat) :
  (1 ≤ i < length orig)%nat →
  remove_duplicates_body (dedup_state orig i) (Z.of_nat i)
    = Ok (dedup_state orig (S i)).
Proof.
  intros Hi. unfold dedup_state. cbv zeta.
  destruct (lookup_lt_is_Some_2 orig i) as [x Hx]; [lia|].
  destruct (lookup_lt_is_Some_2 orig (i - 1)) as [p Hp]; [lia|].
  set (pre := compress (take i orig)).
  assert (Hlen : length (take i orig) = i) by (rewrite length_take; lia).
  assert (Hlast : last (take i orig) = Some p).
  { rewrite last_lookup, Hlen, lookup_take_lt by lia.
    by replace (Init.Nat.pred i) with (i - 1)%nat by lia. }
  assert (Hw : (1 ≤ length pre ≤ i)%nat).
  { subst pre. destruct (compress_length (take i orig)) as [Hle Hge].
    split; [|lia].
    apply Hge. intros Hnil. rewrite Hnil in Hlen. simpl in Hlen. lia. }
  assert (Hcur_i : (pre ++ drop (length pre) orig) !! i = Some x).
  { rewrite lookup_app_r, lookup_drop by lia. rewrite <- Hx. f_equal. lia. }
  assert (Hcur_p : (pre ++ drop (length pre) orig) !! (i - 1)%nat = Some p).
  { destruct (decide (length pre ≤ i - 1)%nat) as [Hle|Hgt].
    - rewrite lookup_app_r, lookup_drop by lia. rewrite <- Hp. f_equal. lia.
    - rewrite lookup_app_l by lia.
      replace (i - 1)%nat with (Init.Nat.pred (length pre)) by lia.
      rewrite <- last_lookup. subst pre. by rewrite compress_last. }
  unfold remove_duplicates_body.
  rewrite (getitem_nat _ i x Hcur_i). run_bind.
  replace (Z.of_nat i - 1) with (Z.of_nat (i - 1)) by lia.
  rewrite (getitem_nat _ (i - 1) p Hcur_p). run_bind.
  rewrite (take_S_r orig i x Hx), (compress_snoc x p _ Hlast). fold pre.
  destruct (bool_decide (x ≠ p)).
  - rewrite setitem_nat
      by (rewrite length_app, length_drop; lia).
    run_bind. f_equal. f_equal.
    + rewrite insert_app_r_alt, Nat.sub_diag by lia.
      destruct (lookup_lt_is_Some_2 orig (length pre)) as [y Hy]; [lia|].
      rewrite (drop_S orig y _ Hy). cbn [list_insert].
      rewrite length_app. cbn [length].
      rewrite <- app_assoc. cbn. do 3 f_equal. lia.
    + rewrite length_app. cbn [length]. lia.
  - by rewrite app_nil_r.
Qed.

Lemma remove_duplicates_loop (orig : list Z) (k : nat) :
  ∀ i : nat,
    (1 ≤ i)%nat → (i + k = length orig)%nat →
    for_each remove_duplicates_body (dedup_state orig i) (Z.of_nat <$> seq i k)
      = Ok (dedup_state orig (length orig)).
Proof.
  induction k as [|k IH]; intros i Hi Hik.
  - cbn. by replace i with (length orig) by lia.
  - cbn [seq fmap list_fmap for_each].
    rewrite remove_duplicates_body_step by lia. run_bind.
    apply IH; lia.
Qed.

(** The call on any list: no exception, the compressed list in front, the
    rest of the storage untouched. *)
Lemma remove_duplicates_result (arr : list Z) :
  remove_duplicates arr =
  Ok (Z.of_nat (length (compress arr)),
      compress arr ++ drop (length (compress arr)) arr).
Proof.
  destruct arr as [|a arr]; [done|].
  unfold remove_duplicates.
  set (orig := a :: arr).
  replace (range 1 (len orig)) with (Z.of_nat <$> seq 1 (length orig - 1)).
  2:{ rewrite <- range_nat. unfold len. do 2 f_equal. subst orig. cbn [length]. lia. }
  replace (orig, 1) with (dedup_state orig 1).
  2:{ subst orig. unfold dedup_state. cbn. by rewrite drop_0. }
  rewrite remove_duplicates_loop by (subst orig; cbn [length]; lia).
  run_bind. unfold dedup_state. cbv zeta. by rewrite firstn_all.
Qed.

Lemma compress_from_elem (prev : Z) (l : list Z) (x : Z) :
  x ∈ prev :: compress_from prev l ↔ x ∈ prev :: l.
Proof.
  revert prev. induction l as [|y l IH]; intros prev; [done|].
  cbn [compress_from]. specialize (IH y).
  destruct (bool_decide_reflect (y ≠ prev)) as [Hne|Heq].
  - rewrite (elem_of_cons (y :: compress_from y l)), IH.
    by rewrite <- elem_of_cons.
  - apply dec_stable in Heq. subst y. rewrite IH, !elem_of_cons. tauto.
Qed.

Lemma compress_elem (l : list Z) (x : Z) : x ∈ compress l ↔ x ∈ l.
Proof. destruct l as [|y l]; [done|]. apply compress_from_elem. Qed.

Lemma compress_from_sorted (prev : Z) (l : list Z) :
  StronglySorted Z.le (prev :: l) →
  StronglySorted Z.lt (prev :: compress_from prev l).
Proof.
  revert prev. induction l as [|y l IH]; intros prev Hs.
  - repeat constructor.
  - apply StronglySorted_inv in Hs as [Hs Hall].
    specialize (IH y Hs). cbn [compress_from].
    apply Forall_cons in Hall as [Hpy Hall].
    destruct (bool_decide_reflect (y ≠ prev)) as [Hne|Heq].
    + constructor; [done|].
      apply StronglySorted_inv in IH as [_ IH].
      constructor; [lia|]. eapply Forall_impl; [exact IH|].
      intros z Hz. cbn in *. lia.
    + apply dec_stable in Heq. by subst y.
Qed.

Lemma compress_sorted (l : list Z) :
  Sorted Z.le l → StronglySorted Z.lt (compress l).
Proof.
  intros Hs. destruct l as [|x l]; [constructor|].
  apply compress_from_sorted, Sorted_StronglySorted; [intros ???; lia|done].
Qed.

Lemma StronglySorted_lt_NoDup (l : list Z) : StronglySorted Z.lt l → NoDup l.
Proof.
  induction 1 as [|x l Hs IH Hall]; constructor; [|done].
  intros Hin. rewrite Forall_forall in Hall. specialize (Hall x Hin). lia.
Qed.

Lemma compress_count (l : list Z) :
  Sorted Z.le l → length (compress l) = size (list_to_set l : gset Z).
Proof.
  intros Hs.
  replace (list_to_set l : gset Z) with (list_to_set (compress l) : gset Z).
  - symmetry. apply size_list_to_set, StronglySorted_lt_NoDup, compress_sorted, Hs.
  - apply set_eq. intros x. by rewrite !elem_of_list_to_set, compress_elem.
Qed.

(** C6: for every list sorted ascending, [remove_duplicates] returns the
    number of distinct values of the list, and afterwards the first
    returned-length elements of the list are exactly the distinct values in
    ascending order; the empty list returns 0; and the call never changes the
    length of the list. *)
Theorem remove_duplicates_correct :
  (∀ arr : list Z,
      Sorted Z.le arr →
      ∃ (n : Z) (arr' : list Z),
        remove_duplicates arr = Ok (n, arr') ∧
        n = Z.of_nat (size (list_to_set arr : gset Z)) ∧
        StronglySorted Z.lt (take (Z.to_nat n) arr') ∧
        (∀ x : Z, x ∈ take (Z.to_nat n) arr' ↔ x ∈ arr)) ∧
  remove_duplicates [] = Ok (0, []) ∧
  (∀ arr : list Z,
      ∃ (n : Z) (arr' : list Z),
        remove_duplicates arr = Ok (n, arr') ∧ length arr' = length arr).
Proof.
  split; [|split].
  - intros arr Hs. eexists _, _. split; [apply remove_duplicates_result|].
    rewrite Nat2Z.id, take_app_length.
    split; [by rewrite compress_count|].
    split; [by apply compress_sorted|].
    intros x. apply compress_elem.
  - reflexivity.
  - intros arr. eexists _, _. split; [apply remove_duplicates_result|].
    rewrite length_app, length_drop.
    pose proof (compress_length arr). lia.
Qed.

(** The statement above on the inputs of the unit tests. *)
Lemma remove_duplicates_correct_witness :
  ∃ (n : Z) (arr' : list Z),
    remove_duplicates [1; 1; 2; 2; 3; 4; 4] = Ok (n, arr') ∧
    n = Z.of_nat (size (list_to_set [1; 1; 2; 2; 3; 4; 4] : gset Z)) ∧
    StronglySorted Z.lt (take (Z.to_nat n) arr') ∧
    (∀ x : Z, x ∈ take (Z.to_nat n) arr' ↔ x ∈ [1; 1; 2; 2; 3; 4; 4]).
Proof.
  apply (proj1 remove_duplicates_correct [1; 1; 2; 2; 3; 4; 4]).
  repeat constructor; lia.
Defined.

(** ** [length_of_longest_substring] *)

Lemma window_snoc {A} (l : list A) (i n : nat) (c : A) :
  l !! (i + n)%nat = Some c → window l i (S n) = window l i n ++ [c].
Proof.
  intros Hc. unfold window. apply take_S_r. by rewrite lookup_drop.
Qed.

Lemma window_cons {A} (l : list A) (i n : nat) (d : A) :
  l !! i = Some d → window l i (S n) = d :: window l (S i) n.
Proof. intros Hd. unfold window. by rewrite (drop_S l d i Hd). Qed.

Lemma window_length {A} (l : list A) (i n : nat) :
  (i + n ≤ length l)%nat → length (window l i n) = n.
Proof. intros Hin. unfold window. rewrite length_take, length_drop. lia. Qed.

Lemma window_elem_of {A} (l : list A) (i n : nat) (x : A) :
  x ∈ window l i n → x ∈ l.
Proof.
  unfold window. intros Hx.
  apply list_elem_of_lookup in Hx as [k Hk].
  apply lookup_take_Some in Hk as [Hk _]. rewrite lookup_drop in Hk.
  by eapply list_elem_of_lookup_2.
Qed.

(** The inner [while] loop at index [r]: it stops at the least [lo'] from
    which the window up to and including [r] has no repetition. *)
Lemma shrink_loop_spec (l : list ascii) (r : nat) (c : ascii) :
  l !! r = Some c →
  ∀ (k lo : nat),
    (lo ≤ r)%nat → (r - lo ≤ k)%nat →
    NoDup (window l lo (r - lo)) →
    (∀ i, (i < lo)%nat → ¬ NoDup (window l i (S (r - i)))) →
    ∃ lo' : nat,
      (∀ fuel, (k < fuel)%nat →
         shrink_loop fuel l (Z.of_nat r) (list_to_set (window l lo (r - lo)))
           (Z.of_nat lo)
         = Ok (list_to_set (window l lo' (r - lo')), Z.of_nat lo')) ∧
      (lo' ≤ r)%nat ∧
      NoDup (window l lo' (S (r - lo'))) ∧
      (∀ i, (i < lo')%nat → ¬ NoDup (window l i (S (r - i)))).
Proof.
  intros Hc. induction k as [|k IH]; intros lo Hlo Hk Hnd Hmin.
  - assert (lo = r) as -> by lia. exists r. rewrite Nat.sub_diag in *.
    split; [|split; [lia|split; [|done]]].
    + intros [|fuel] ?; [lia|]. cbn [shrink_loop].
      rewrite (getitem_nat l r c Hc). run_bind.
      rewrite bool_decide_eq_false_2; [done|]. cbn. set_solver.
    + rewrite (window_snoc l r 0 c) by (by rewrite Nat.add_0_r).
      cbn. apply NoDup_singleton.
  - destruct (decide (c ∈ window l lo (r - lo))) as [Hin|Hnin].
    + assert (lo < r)%nat as Hlt.
      { destruct (decide (lo = r)) as [->|]; [|lia].
        rewrite Nat.sub_diag in Hin. cbn in Hin. set_solver. }
      destruct (lookup_lt_is_Some_2 l lo) as [d Hd].
      { apply lookup_lt_Some in Hc. lia. }
      assert (Hwin : window l lo (r - lo) = d :: window l (S lo) (r - S lo)).
      { replace (r - lo)%nat with (S (r - S lo)) by lia. by apply window_cons. }
      rewrite Hwin in Hnd. apply NoDup_cons in Hnd as [Hd_fresh Hnd'].
      destruct (IH (S lo)) as (lo' & Hrun & Hlo' & Hnd_out & Hmin');
        [lia|lia|done| |].
      { intros i Hi. destruct (decide (i = lo)) as [->|]; [|apply Hmin; lia].
        rewrite (window_snoc l lo (r - lo) c) by (rewrite <- Hc; f_equal; lia).
        rewrite NoDup_app. intros (_ & Hdisj & _).
        apply (Hdisj c Hin). set_solver. }
      exists lo'. split; [|done].
      intros [|fuel] ?; [lia|]. cbn [shrink_loop].
      rewrite (getitem_nat l r c Hc). run_bind.
      rewrite bool_decide_eq_true_2 by (by rewrite elem_of_list_to_set).
      rewrite (getitem_nat l lo d Hd). run_bind.
      rewrite bool_decide_eq_true_2
        by (rewrite elem_of_list_to_set, Hwin; set_solver).
      replace (Z.of_nat lo + 1) with (Z.of_nat (S lo)) by lia.
      replace (list_to_set (window l lo (r - lo)) ∖ {[d]} : gset ascii)
        with (list_to_set (window l (S lo) (r - S lo)) : gset ascii);
        [apply Hrun; lia|].
      rewrite Hwin. cbn [list_to_set foldr]. symmetry.
      apply set_eq. intros x. rewrite elem_of_difference, elem_of_union,
        elem_of_singleton, elem_of_list_to_set.
      split; [tauto|]. intros Hx. split; [by right|]. by intros ->.
    + exists lo. split; [|split; [lia|split; [|done]]].
      * intros [|fuel] ?; [lia|]. cbn [shrink_loop].
        rewrite (getitem_nat l r c Hc). run_bind.
        by rewrite bool_decide_eq_false_2 by (by rewrite elem_of_list_to_set).
      * rewrite (window_snoc l lo (r - lo) c) by (rewrite <- Hc; f_equal; lia).
        rewrite NoDup_app. split; [done|]. split; [|apply NoDup_singleton].
        intros x Hx Hxc. apply list_elem_of_singleton in Hxc. by subst x.
Qed.

(** One turn of the [for] loop at index [r]. *)
Lemma longest_body_step (l : list ascii) (r : nat)
    (st : gset ascii * Z * Z) :
  (r < length l)%nat → longest_inv l r st →
  ∃ st',
    (∀ fuel, (length l < fuel)%nat →
       longest_body fuel l st (Z.of_nat r) = Ok st') ∧
    longest_inv l (S r) st'.
Proof.
  intros Hr (lo & m & -> & Hlo & Hnd & Hmin & (i0 & Hi0 & Hnd0) & Hmax).
  destruct (lookup_lt_is_Some_2 l r Hr) as [c Hc].
  assert (Hsnoc : ∀ i, (i ≤ r)%nat →
            window l i (S (r - i)) = window l i (r - i) ++ [c]).
  { intros i Hi. apply window_snoc. rewrite <- Hc. f_equal. lia. }
  destruct (shrink_loop_spec l r c Hc (r - lo) lo)
    as (lo' & Hrun & Hlo' & Hnd' & Hmin'); [lia|lia|done| |].
  { intros i Hi. rewrite Hsnoc by lia. rewrite NoDup_app.
    intros (Hnd_i & _). by apply (Hmin i). }
  exists (list_to_set (window l lo' (r - lo')) ∪ {[c]}, Z.of_nat lo',
          Z.max (Z.of_nat m) (Z.of_nat r - Z.of_nat lo' + 1)).
  split.
  - intros fuel Hfuel. unfold longest_body.
    rewrite Hrun by lia. run_bind.
    by rewrite (getitem_nat l r c Hc).
  - exists lo', (m `max` (S r - lo'))%nat.
    replace (S r - lo')%nat with (S (r - lo')) by lia.
    split; [|split; [lia|split; [done|split; [|split]]]].
    + f_equal; [f_equal|lia].
      rewrite Hsnoc by lia. apply set_eq. intros x.
      rewrite elem_of_union, !elem_of_list_to_set, elem_of_app,
        elem_of_singleton, list_elem_of_singleton. done.
    + intros i Hi. replace (S r - i)%nat with (S (r - i)) by lia.
      by apply Hmin'.
    + destruct (decide (S (r - lo') ≤ m)%nat) as [Hle|Hgt].
      * exists i0. rewrite Nat.max_l by lia. split; [lia|done].
      * exists lo'. rewrite Nat.max_r by lia. split; [lia|done].
    + intros i n Hin Hnd_in.
      destruct (decide (i + n ≤ r)%nat) as [Hle|Hgt].
      { specialize (Hmax i n Hle Hnd_in). lia. }
      destruct (decide (n = 0)%nat) as [->|Hn]; [lia|].
      assert (n = S (r - i)) as -> by lia.
      destruct (decide (i < lo')%nat) as [Hlt|Hge]; [|lia].
      by destruct (Hmin' i Hlt).
Qed.

Lemma longest_loop_spec (l : list ascii) (k : nat) :
  ∀ (r : nat) (st : gset ascii * Z * Z),
    (r + k = length l)%nat → longest_inv l r st →
    ∃ st',
      (∀ fuel, (length l < fuel)%nat →
         for_each (longest_body fuel l) st (Z.of_nat <$> seq r k) = Ok st') ∧
      longest_inv l (length l) st'.
Proof.
  induction k as [|k IH]; intros r st Hrk Hinv.
  - exists st. split; [done|]. by replace (length l) with r by lia.
  - destruct (longest_body_step l r st) as (st1 & Hstep & Hinv1); [lia|done|].
    destruct (IH (S r) st1) as (st' & Hrun & Hinv'); [lia|done|].
    exists st'. split; [|done].
    intros fuel Hfuel. cbn [seq fmap list_fmap for_each].
    rewrite Hstep by done. run_bind. by apply Hrun.
Qed.

Lemma longest_inv_init (l : list ascii) : longest_inv l 0 (∅, 0, 0).
Proof.
  exists 0%nat, 0%nat. cbn.
  split; [done|split; [lia|split; [constructor|split; [|split]]]].
  - intros i Hi. lia.
  - exists 0%nat. split; [lia|]. unfold window. cbn. constructor.
  - intros i n Hin _. lia.
Qed.

(** The call returns the length of a longest window without repetition. *)
Lemma length_of_longest_substring_spec (s : string) :
  let l := list_ascii_of_string s in
  ∃ m : nat,
    (∀ fuel, (length l < fuel)%nat →
       length_of_longest_substring fuel s = Ok (Z.of_nat m)) ∧
    (∃ i, (i + m ≤ length l)%nat ∧ NoDup (window l i m)) ∧
    (∀ i n, (i + n ≤ length l)%nat → NoDup (window l i n) → (n ≤ m)%nat).
Proof.
  intros l.
  destruct (longest_loop_spec l (length l) 0 (∅, 0, 0))
    as (st' & Hrun & (lo & m & -> & _ & _ & _ & Hex & Hmax));
    [lia|apply longest_inv_init|].
  exists m. split; [|done].
  intros fuel Hfuel. unfold length_of_longest_substring. fold l.
  replace (range 0 (len l)) with (Z.of_nat <$> seq 0 (length l))
    by (by rewrite <- range_nat).
  by rewrite Hrun.
Qed.

Lemma length_of_longest_substring_value (s : string) (v : Z) :
  length_of_longest_substring (S (length (list_ascii_of_string s))) s = Ok v →
  returns (λ fuel, length_of_longest_substring fuel s) v.
Proof.
  intros Hv. destruct (length_of_longest_substring_spec s) as (m & Hrun & _).
  cbv zeta in Hrun. rewrite Hrun in Hv by lia. injection Hv as <-.
  by apply (returns_from _ _ (S (length (list_ascii_of_string s)))).
Qed.

(** C9: for every string [s], [length_of_longest_substring] returns the
    length of the longest contiguous substring of [s] whose characters are
    pairwise distinct: some window of that length has no repeated character
    and no window without repetition is longer.  Hence the result is at most
    [len(s)] and at most the number of distinct characters of [s]; the empty
    string gives 0; and the three examples give 3, 1 and 3. *)
Theorem length_of_longest_substring_correct :
  (∀ s : string,
      let l := list_ascii_of_string s in
      ∃ m : nat,
        returns (λ fuel, length_of_longest_substring fuel s) (Z.of_nat m) ∧
        (∃ i, (i + m ≤ length l)%nat ∧ NoDup (window l i m)) ∧
        (∀ i n, (i + n ≤ length l)%nat → NoDup (window l i n) → (n ≤ m)%nat) ∧
        (m ≤ length l)%nat ∧
        (m ≤ size (list_to_set l : gset ascii))%nat) ∧
  returns (λ fuel, length_of_longest_substring fuel "") 0 ∧
  returns (λ fuel, length_of_longest_substring fuel "abcabcbb") 3 ∧
  returns (λ fuel, length_of_longest_substring fuel "bbbbb") 1 ∧
  returns (λ fuel, length_of_longest_substring fuel "pwwkew") 3.
Proof.
  split; [|repeat split; by apply length_of_longest_substring_value].
  intros s l.
  destruct (length_of_longest_substring_spec s)
    as (m & Hrun & (i & Hi & Hnd) & Hmax).
  fold l in Hrun, Hi, Hnd, Hmax.
  exists m. split; [by apply (returns_from _ _ (S (length l)))|].
  split; [by exists i|]. split; [done|]. split; [lia|].
  rewrite <- (window_length l i m Hi), <- (size_list_to_set (C:=gset ascii)) by done.
  apply subseteq_size. intros x.
  rewrite !elem_of_list_to_set. apply window_elem_of.
Qed.

(** The statement above on the inputs of the unit tests. *)
Lemma length_of_longest_substring_correct_witness :
  ∃ m : nat,
    returns (λ fuel, length_of_longest_substring fuel "abcabcbb")
      (Z.of_nat m) ∧
    (3 ≤ m)%nat.
Proof.
  destruct (proj1 length_of_longest_substring_correct "abcabcbb")
    as (m & Hret & _ & Hmax & _).
  exists m. split; [exact Hret|].
  apply (Hmax 0%nat 3%nat); [cbn; lia|].
  apply (bool_decide_unpack _). by vm_compute.
Defined.

(** ** Walking along [next] links *)

Lemma walk_S (h : store) (k : nat) (r : ref) :
  walk h (S k) r = follow h (walk h k r).
Proof. reflexivity. Qed.

Lemma walk_add (h : store) (a b : nat) (r : ref) :
  walk h (a + b) r = walk h a (walk h b r).
Proof. unfold walk. apply Nat.iter_add. Qed.

Lemma walk_None (h : store) (k : nat) : walk h k None = None.
Proof. induction k as [|k IH]; [done|]. by rewrite walk_S, IH. Qed.

Lemma walk_None_ge (h : store) (k k' : nat) (r : ref) :
  walk h k r = None → (k ≤ k')%nat → walk h k' r = None.
Proof.
  intros Hk Hle. replace k' with ((k' - k) + k)%nat by lia.
  by rewrite walk_add, Hk, walk_None.
Qed.

Lemma walk_Some_le (h : store) (k k' : nat) (r : ref) :
  is_Some (walk h k' r) → (k ≤ k')%nat → is_Some (walk h k r).
Proof.
  intros Hk' Hle. destruct (walk h k r) eqn:Hk; [done|].
  rewrite (walk_None_ge h k k' r Hk Hle) in Hk'. by destruct Hk'.
Qed.

Lemma follow_valid (h : store) (r : ref) :
  closed h → valid h r → valid h (follow h r).
Proof.
  intros Hc Hr. destruct r as [p|]; [|done]. cbn.
  destruct (h !! p) as [nd|] eqn:Hp; [|done]. cbn.
  exact (Hc p nd Hp).
Qed.

Lemma walk_valid (h : store) (k : nat) (r : ref) :
  closed h → valid h r → valid h (walk h k r).
Proof.
  intros Hc Hr. induction k as [|k IH]; [done|].
  rewrite walk_S. by apply follow_valid.
Qed.

(** On a valid reference to a node, [r.next] is [follow]. *)
Lemma get_next_follow (h : store) (r : ref) :
  valid h r → is_Some r → get_next h r = Ok (follow h r).
Proof.
  intros Hv [p ->]. cbn in *. destruct Hv as [nd Hnd]. by rewrite Hnd.
Qed.

Lemma fast_can_step_follow (h : store) (r : ref) :
  valid h r →
  fast_can_step h r = Ok (bool_decide (is_Some r ∧ is_Some (follow h r))).
Proof.
  intros Hv. unfold fast_can_step. destruct r as [p|]; cbn [truthy].
  - rewrite get_next_follow by done. run_bind. f_equal.
    destruct (follow h (Some p)) as [q|]; cbn [truthy].
    + by rewrite bool_decide_eq_true_2.
    + rewrite bool_decide_eq_false_2; [done|]. intros [_ [? ?]]. done.
  - rewrite bool_decide_eq_false_2; [done|]. intros [[? ?] _]. done.
Qed.

(** ** Finitely many nodes: a long enough walk repeats a node *)

Lemma repeated_lookup {A} `{EqDecision A} (l : list A) :
  ¬ NoDup l →
  ∃ (i j : nat) (x : A), (i < j)%nat ∧ l !! i = Some x ∧ l !! j = Some x.
Proof.
  induction l as [|x l IH]; intros Hdup.
  - destruct Hdup. constructor.
  - destruct (decide (x ∈ l)) as [Hin|Hnin].
    + apply list_elem_of_lookup in Hin as [j Hj].
      exists 0%nat, (S j), x. split; [lia|]. by split.
    + destruct IH as (i & j & y & Hij & Hi & Hj).
      { intros Hnd. apply Hdup. by constructor. }
      exists (S i), (S j), y. split; [lia|]. by split.
Qed.

Lemma pigeonhole {A} `{EqDecision A} (l k : list A) :
  (∀ x, x ∈ l → x ∈ k) → (length k < length l)%nat →
  ∃ (i j : nat) (x : A), (i < j)%nat ∧ l !! i = Some x ∧ l !! j = Some x.
Proof.
  intros Hsub Hlen. apply repeated_lookup. intros Hnd.
  pose proof (submseteq_length _ _ (NoDup_submseteq l k Hnd Hsub)). lia.
Qed.

Lemma least_nat (P : nat → Prop) `{∀ n, Decision (P n)} (n : nat) :
  P n → ∃ m : nat, P m ∧ (m ≤ n)%nat ∧ ∀ k, (k < m)%nat → ¬ P k.
Proof.
  intros Hn.
  assert (Hbelow : ∀ b, (∃ m, P m ∧ (m < b)%nat ∧ ∀ k, (k < m)%nat → ¬ P k)
                        ∨ (∀ k, (k < b)%nat → ¬ P k)).
  { induction b as [|b [(m & Hm & Hlt & Hleast)|Hnone]].
    - right. intros k Hk. lia.
    - left. exists m. split; [done|]. split; [lia|done].
    - destruct (decide (P b)) as [Hb|Hb].
      + left. exists b. split; [done|]. split; [lia|done].
      + right. intros k Hk. destruct (decide (k = b)) as [->|]; [done|].
        apply Hnone. lia. }
  destruct (Hbelow (S n)) as [(m & Hm & Hlt & Hleast)|Hnone].
  - exists m. split; [done|]. split; [lia|done].
  - destruct (Hnone n); [lia|done].
Qed.

Section walks.
Context (h : store) (head : ref).
Hypothesis Hwalk : ∀ k, valid h (walk h k head).

(** A walk that is still on a node after [size h] links has visited some
    node twice. *)
Lemma walk_repeats :
  is_Some (walk h (size h) head) →
  ∃ i j : nat,
    (i < j ≤ size h)%nat ∧ walk h i head = walk h j head.
Proof.
  intros Hlong.
  destruct (pigeonhole ((λ k, walk h k head) <$> seq 0 (S (size h)))
              (Some <$> elements (dom h)))
    as (i & j & x & Hij & Hi & Hj).
  - intros x Hx. apply list_elem_of_fmap in Hx as (k & -> & Hk).
    apply elem_of_seq in Hk.
    destruct (walk_Some_le h k (size h) head Hlong) as [p Hp]; [lia|].
    pose proof (Hwalk k) as Hv.
    rewrite Hp in Hv |- *. apply list_elem_of_fmap. exists p. split; [done|].
    by apply elem_of_elements, elem_of_dom.
  - rewrite !length_fmap, length_seq.
    change (length (elements (dom h))) with (size (dom h)).
    rewrite size_dom. lia.
  - apply list_lookup_fmap_Some in Hi as (i' & Hi_eq & Hi').
    apply list_lookup_fmap_Some in Hj as (j' & Hj_eq & Hj').
    apply lookup_seq in Hi' as [-> Hi_lt], Hj' as [-> Hj_lt].
    exists i, j. split; [lia|].
    change (0 + i)%nat with i in Hi_eq. change (0 + j)%nat with j in Hj_eq.
    congruence.
Qed.

Lemma walk_periodic (k l n j : nat) :
  walk h (k + l) head = walk h k head →
  walk h (k + j + n * l) head = walk h (k + j) head.
Proof.
  intros Hper. induction n as [|n IH].
  - f_equal. lia.
  - rewrite <- IH.
    replace (k + j + S n * l)%nat with ((j + n * l) + (k + l))%nat by lia.
    replace (k + j + n * l)%nat with ((j + n * l) + k)%nat by lia.
    by rewrite !(walk_add h (j + n * l)), Hper.
Qed.

(** A node on a cycle is never left: the walk does not reach [None]. *)
Lemma cyclic_never_None (k : nat) : cyclic h head → is_Some (walk h k head).
Proof.
  intros (i & p & Hp & l & Hl & Hback).
  assert (Hper : walk h (i + l) head = walk h i head).
  { by rewrite Nat.add_comm, walk_add, Hp. }
  apply (walk_Some_le h k (i + 0 + k * l) head); [|nia].
  rewrite walk_periodic by done. rewrite Nat.add_0_r, Hp. done.
Qed.

Lemma repeat_cyclic (i j : nat) :
  (i < j)%nat → walk h i head = walk h j head →
  is_Some (walk h i head) → cyclic h head.
Proof.
  intros Hij Heq [p Hp]. exists i, p. split; [done|].
  exists (j - i)%nat. split; [lia|].
  rewrite <- Hp, <- walk_add. replace (j - i + i)%nat with j by lia.
  by rewrite <- Heq.
Qed.

(** Either the walk from [head] ends, or it runs into a cycle. *)
Lemma ends_or_cyclic :
  walk h (size h) head = None ∨ cyclic h head.
Proof.
  destruct (walk h (size h) head) as [p|] eqn:Hp; [right|by left].
  destruct walk_repeats as (i & j & Hij & Heq); [by rewrite Hp|].
  apply (repeat_cyclic i j); [lia|done|].
  apply (walk_Some_le h i (size h) head); [by rewrite Hp|lia].
Qed.

Lemma end_not_cyclic (n : nat) : walk h n head = None → ¬ cyclic h head.
Proof.
  intros Hn Hcyc. destruct (cyclic_never_None n Hcyc) as [p Hp]. congruence.
Qed.

(** In a cyclic structure the two cursors meet: there is a first turn
    [t ≥ 1] of the loop after which [slow] and [fast] are the same node. *)
Lemma first_meeting :
  cyclic h head →
  ∃ t : nat,
    (1 ≤ t)%nat ∧ walk h t head = walk h (2 * t) head ∧
    ∀ s, (1 ≤ s < t)%nat → walk h s head ≠ walk h (2 * s) head.
Proof.
  intros (i & p & Hp & l & Hl & Hback).
  assert (Hper : walk h (i + l) head = walk h i head).
  { by rewrite Nat.add_comm, walk_add, Hp. }
  destruct (least_nat
              (λ t, (1 ≤ t)%nat ∧ walk h t head = walk h (2 * t) head)
              (l * (i + 1))) as (t & [Ht Hmeet] & _ & Hleast).
  - split; [nia|].
    pose proof (walk_periodic i l (i + 1) (l * (i + 1) - i) Hper) as Hw.
    replace (i + (l * (i + 1) - i))%nat with (l * (i + 1))%nat in Hw by nia.
    rewrite <- Hw. f_equal. nia.
  - exists t. split; [done|]. split; [done|].
    intros s Hs Heq. apply (Hleast s); [lia|]. split; [lia|done].
Qed.
End walks.

(** ** The fast/slow loops *)

(** [has_cycle] runs the first loop of [detect_cycle_start] and reports
    whether it left by [break]. *)
Lemma has_cycle_loop_meet (fuel : nat) (h : store) (slow fast : ref) :
  has_cycle_loop fuel h slow fast =
  m ← meet_loop fuel h slow fast; Ok (bool_decide (is_Some m)).
Proof.
  revert slow fast. induction fuel as [|fuel IH]; intros slow fast; [done|].
  cbn [has_cycle_loop meet_loop].
  destruct (fast_can_step h fast) as [[|]| |]; run_bind; try done.
  destruct (get_next h slow) as [slow'| |]; run_bind; try done.
  destruct (get_next h fast) as [fn| |]; run_bind; try done.
  destruct (get_next h fn) as [fast'| |]; run_bind; try done.
  case_bool_decide; [done|]. apply IH.
Qed.

Section loops.
Context (h : store) (head : ref).
Hypothesis Hwalk : ∀ k, valid h (walk h k head).

Lemma get_next_walk (k : nat) :
  is_Some (walk h k head) →
  get_next h (walk h k head) = Ok (walk h (S k) head).
Proof.
  intros Hk. rewrite walk_S. by apply get_next_follow.
Qed.

Lemma fast_can_step_walk (k : nat) :
  fast_can_step h (walk h k head)
    = Ok (bool_decide (is_Some (walk h (S k) head))).
Proof.
  rewrite fast_can_step_follow by done.
  f_equal. apply bool_decide_ext. rewrite walk_S. split; [by intros [_ ?]|].
  intros HS. split; [|done].
  apply (walk_Some_le h k (S k) head); [by rewrite walk_S|lia].
Qed.

(** One turn of the first loop of [detect_cycle_start]. *)
Lemma meet_loop_turn (fuel t : nat) :
  is_Some (walk h (2 * t + 1) head) →
  meet_loop (S fuel) h (walk h t head) (walk h (2 * t) head) =
  if bool_decide (walk h (S t) head = walk h (2 * S t) head)
  then Ok (Some (walk h (S t) head))
  else meet_loop fuel h (walk h (S t) head) (walk h (2 * S t) head).
Proof.
  intros Hgo. cbn [meet_loop].
  replace (2 * t + 1)%nat with (S (2 * t)) in Hgo by lia.
  rewrite fast_can_step_walk, bool_decide_eq_true_2 by done. run_bind.
  rewrite (get_next_walk t)
    by (apply (walk_Some_le h t (S (2 * t)) head); [done|lia]).
  run_bind.
  rewrite (get_next_walk (2 * t))
    by (apply (walk_Some_le h (2 * t) (S (2 * t)) head); [done|lia]).
  run_bind. rewrite (get_next_walk (S (2 * t))) by done. run_bind.
  by replace (S (S (2 * t))) with (2 * S t)%nat by lia.
Qed.

Lemma meet_loop_stop (fuel t : nat) :
  walk h (2 * t + 1) head = None →
  meet_loop (S fuel) h (walk h t head) (walk h (2 * t) head) = Ok None.
Proof.
  intros Hend. cbn [meet_loop].
  replace (2 * t + 1)%nat with (S (2 * t)) in Hend by lia.
  rewrite fast_can_step_walk, bool_decide_eq_false_2; [done|].
  rewrite Hend. by intros [? ?].
Qed.

(** The same for [find_middle]. *)
Lemma find_middle_loop_turn (fuel t : nat) :
  is_Some (walk h (2 * t + 1) head) →
  find_middle_loop (S fuel) h (walk h t head) (walk h (2 * t) head) =
  find_middle_loop fuel h (walk h (S t) head) (walk h (2 * S t) head).
Proof.
  intros Hgo. cbn [find_middle_loop].
  replace (2 * t + 1)%nat with (S (2 * t)) in Hgo by lia.
  rewrite fast_can_step_walk, bool_decide_eq_true_2 by done. run_bind.
  rewrite (get_next_walk t)
    by (apply (walk_Some_le h t (S (2 * t)) head); [done|lia]).
  run_bind.
  rewrite (get_next_walk (2 * t))
    by (apply (walk_Some_le h (2 * t) (S (2 * t)) head); [done|lia]).
  run_bind. rewrite (get_next_walk (S (2 * t))) by done. run_bind.
  by replace (S (S (2 * t))) with (2 * S t)%nat by lia.
Qed.

Lemma find_middle_loop_stop (fuel t : nat) :
  walk h (2 * t + 1) head = None →
  find_middle_loop (S fuel) h (walk h t head) (walk h (2 * t) head)
    = Ok (walk h t head).
Proof.
  intros Hend. cbn [find_middle_loop].
  replace (2 * t + 1)%nat with (S (2 * t)) in Hend by lia.
  rewrite fast_can_step_walk, bool_decide_eq_false_2; [done|].
  rewrite Hend. by intros [? ?].
Qed.

(** When the walk ends after [n] links, the first loop ends by its test. *)
Lemma meet_loop_ends (n : nat) :
  walk h n head = None →
  ∀ fuel t : nat,
    (n - 2 * t < fuel)%nat →
    meet_loop fuel h (walk h t head) (walk h (2 * t) head) = Ok None.
Proof.
  intros Hn. induction fuel as [|fuel IH]; intros t Hfuel; [lia|].
  destruct (walk h (2 * t + 1) head) as [p|] eqn:Hp;
    [|by apply meet_loop_stop].
  assert (2 * t + 1 < n)%nat as Hlt.
  { destruct (decide (2 * t + 1 < n)%nat) as [|Hge]; [done|].
    rewrite (walk_None_ge h n (2 * t + 1) head Hn) in Hp by lia. done. }
  rewrite meet_loop_turn by (by rewrite Hp).
  rewrite bool_decide_eq_false_2; [apply IH; lia|].
  intros Heq. apply (end_not_cyclic h head n Hn).
  apply (repeat_cyclic h head (S t) (2 * S t)); [lia|done|].
  apply (walk_Some_le h (S t) (2 * t + 1) head); [by rewrite Hp|lia].
Qed.

(** In a cyclic structure, the first loop leaves by [break] at the first
    meeting of the cursors. *)
Lemma meet_loop_meets (T : nat) :
  cyclic h head →
  walk h T head = walk h (2 * T) head →
  (∀ s, (1 ≤ s < T)%nat → walk h s head ≠ walk h (2 * s) head) →
  ∀ fuel t : nat,
    (t < T)%nat → (T - t ≤ fuel)%nat →
    meet_loop fuel h (walk h t head) (walk h (2 * t) head)
      = Ok (Some (walk h T head)).
Proof.
  intros Hcyc Hmeet Hfirst.
  induction fuel as [|fuel IH]; intros t Ht Hfuel; [lia|].
  rewrite meet_loop_turn by (by apply cyclic_never_None).
  destruct (decide (S t = T)) as [<-|Hne].
  - by rewrite bool_decide_eq_true_2.
  - rewrite bool_decide_eq_false_2 by (apply Hfirst; lia).
    apply IH; lia.
Qed.

(** The second loop of [detect_cycle_start], started [T] links apart. *)
Lemma start_loop_meets (T mu : nat) :
  cyclic h head →
  walk h mu head = walk h (T + mu) head →
  (∀ s, (s < mu)%nat → walk h s head ≠ walk h (T + s) head) →
  ∀ fuel s : nat,
    (s ≤ mu)%nat → (mu - s < fuel)%nat →
    start_loop fuel h (walk h s head) (walk h (T + s) head)
      = Ok (walk h mu head).
Proof.
  intros Hcyc Hmeet Hfirst.
  induction fuel as [|fuel IH]; intros s Hs Hfuel; [lia|].
  cbn [start_loop]. destruct (decide (s = mu)) as [->|Hne].
  - rewrite bool_decide_eq_false_2; [done|]. intros Hne. by apply Hne.
  - rewrite bool_decide_eq_true_2 by (apply Hfirst; lia).
    rewrite !get_next_walk by (by apply cyclic_never_None). run_bind.
    rewrite <- Nat.add_succ_r. apply IH; lia.
Qed.

(** The node where the second loop stops is the entry of the cycle. *)
Lemma meeting_is_entry (T mu : nat) (e : loc) :
  (1 ≤ T)%nat →
  walk h T head = walk h (2 * T) head →
  walk h mu head = walk h (T + mu) head →
  (∀ s, (s < mu)%nat → walk h s head ≠ walk h (T + s) head) →
  walk h mu head = Some e →
  cycle_entry h head e.
Proof.
  intros HT Hmeet Hmu Hfirst He. exists mu. split; [done|]. split.
  - exists T. split; [lia|]. by rewrite <- He, <- walk_add, <- Hmu.
  - intros k q Hk Hq (l & Hl & Hback).
    apply (Hfirst k Hk).
    assert (Hper : walk h (k + l) head = walk h k head).
    { by rewrite Nat.add_comm, walk_add, Hq. }
    pose proof (walk_periodic h head k l T 0 Hper) as H0.
    pose proof (walk_periodic h head k l T T Hper) as HT'.
    rewrite Nat.add_0_r in H0.
    rewrite <- H0, (Nat.add_comm T k), <- HT'.
    replace (k + T * l)%nat with ((k + T * l - T) + T)%nat by nia.
    replace (k + T + T * l)%nat with ((k + T * l - T) + 2 * T)%nat by nia.
    by rewrite !(walk_add h (k + T * l - T)), Hmeet.
Qed.
End loops.

(** ** Results of the three linked-list operations *)

Section results.
Context (h : store) (head : ref).
Hypothesis Hwalk : ∀ k, valid h (walk h k head).

Lemma meet_loop_cyclic :
  cyclic h head →
  ∃ T : nat,
    (1 ≤ T)%nat ∧ walk h T head = walk h (2 * T) head ∧
    ∀ fuel, (T ≤ fuel)%nat →
      meet_loop fuel h head head = Ok (Some (walk h T head)).
Proof.
  intros Hcyc.
  destruct (first_meeting h head Hcyc) as (T & HT & Hmeet & Hfirst).
  exists T. split; [done|]. split; [done|]. intros fuel Hfuel.
  apply (meet_loop_meets h head Hwalk T Hcyc Hmeet Hfirst fuel 0); lia.
Qed.

Lemma meet_loop_acyclic (n : nat) :
  walk h n head = None →
  ∀ fuel, (n < fuel)%nat → meet_loop fuel h head head = Ok None.
Proof.
  intros Hn fuel Hfuel. apply (meet_loop_ends h head Hwalk n Hn fuel 0). lia.
Qed.

Lemma has_cycle_cyclic :
  cyclic h head → returns (λ fuel, has_cycle fuel h head) true.
Proof.
  intros Hcyc. destruct (meet_loop_cyclic Hcyc) as (T & _ & _ & Hrun).
  apply (returns_from _ _ T). intros fuel Hfuel.
  unfold has_cycle. rewrite has_cycle_loop_meet, Hrun by done. run_bind.
  by rewrite bool_decide_eq_true_2.
Qed.

Lemma has_cycle_ends (n : nat) :
  walk h n head = None → returns (λ fuel, has_cycle fuel h head) false.
Proof.
  intros Hn. apply (returns_from _ _ (S n)). intros fuel Hfuel.
  unfold has_cycle. rewrite has_cycle_loop_meet.
  rewrite (meet_loop_acyclic n Hn) by lia. run_bind.
  rewrite bool_decide_eq_false_2; [done|]. by intros [? ?].
Qed.

Lemma detect_cycle_start_ends (n : nat) :
  walk h n head = None →
  returns (λ fuel, detect_cycle_start fuel h head) None.
Proof.
  intros Hn. apply (returns_from _ _ (S n)). intros fuel Hfuel.
  unfold detect_cycle_start.
  rewrite (meet_loop_acyclic n Hn) by lia. done.
Qed.

Lemma detect_cycle_start_cyclic :
  cyclic h head →
  ∃ e : loc,
    returns (λ fuel, detect_cycle_start fuel h head) (Some e) ∧
    cycle_entry h head e.
Proof.
  intros Hcyc. destruct (meet_loop_cyclic Hcyc) as (T & HT & Hmeet & Hrun).
  destruct (least_nat (λ s, walk h s head = walk h (T + s) head) T)
    as (mu & Hmu & Hle & Hfirst).
  { rewrite Hmeet at 1. f_equal. lia. }
  destruct (cyclic_never_None h head mu Hcyc) as [e He].
  exists e. split.
  - apply (returns_from _ _ (S T)). intros fuel Hfuel.
    unfold detect_cycle_start. rewrite Hrun by lia. run_bind.
    rewrite <- He.
    pose proof (start_loop_meets h head Hwalk T mu Hcyc Hmu Hfirst fuel 0)
      as Hstart.
    rewrite Nat.add_0_r in Hstart. apply Hstart; lia.
  - by apply (meeting_is_entry h head T mu e).
Qed.

(** [find_middle] on a walk that ends after exactly [n] links. *)
Lemma find_middle_loop_ends (n : nat) :
  walk h n head = None →
  (∀ k, (k < n)%nat → is_Some (walk h k head)) →
  ∀ fuel t : nat,
    (2 * t ≤ n)%nat → (n / 2 - t < fuel)%nat →
    find_middle_loop fuel h (walk h t head) (walk h (2 * t) head)
      = Ok (walk h (n / 2) head).
Proof.
  intros Hn Hbefore. induction fuel as [|fuel IH]; intros t Ht Hfuel; [lia|].
  destruct (decide (2 * t + 1 < n)%nat) as [Hlt|Hge].
  - rewrite (find_middle_loop_turn h head Hwalk) by (apply Hbefore; lia).
    apply IH; [lia|].
    assert (S t ≤ n / 2)%nat by (apply Nat.div_le_lower_bound; lia). lia.
  - rewrite (find_middle_loop_stop h head Hwalk)
      by (apply (walk_None_ge h n); [done|lia]).
    do 2 f_equal.
    apply (Nat.div_unique n 2 t (n - 2 * t)); lia.
Qed.

Lemma find_middle_ends (n : nat) :
  walk h n head = None →
  (∀ k, (k < n)%nat → is_Some (walk h k head)) →
  returns (λ fuel, find_middle fuel h head) (walk h (n / 2) head).
Proof.
  intros Hn Hbefore. apply (returns_from _ _ (S n)). intros fuel Hfuel.
  apply (find_middle_loop_ends n Hn Hbefore fuel 0); [lia|].
  pose proof (Nat.Div0.div_le_upper_bound n 2 n). lia.
Qed.

(** [find_middle] has no test that stops it inside a cycle. *)
Lemma find_middle_loop_cyclic (fuel : nat) :
  cyclic h head →
  ∀ t : nat,
    find_middle_loop fuel h (walk h t head) (walk h (2 * t) head)
      = OutOfFuel.
Proof.
  intros Hcyc. induction fuel as [|fuel IH]; intros t; [done|].
  rewrite (find_middle_loop_turn h head Hwalk)
    by (by apply cyclic_never_None).
  apply IH.
Qed.

Lemma find_middle_cyclic :
  cyclic h head → diverges (λ fuel, find_middle fuel h head).
Proof. intros Hcyc fuel. apply (find_middle_loop_cyclic fuel Hcyc 0). Qed.
End results.

(** The walk along an acyclic list visits its nodes in order. *)
Lemma is_list_walk (h : store) (nodes : list loc) :
  ∀ (head : ref) (k : nat),
    is_list h head nodes → walk h k head = nodes !! k.
Proof.
  induction nodes as [|p rest IH]; intros head k Hl.
  - cbn in Hl. subst head. by rewrite walk_None.
  - destruct Hl as (-> & nd & Hnd & Hrest). destruct k as [|k]; [done|].
    unfold walk. rewrite Nat.iter_succ_r.
    change ((p :: rest) !! S k) with (rest !! k).
    rewrite <- (IH (next nd) k Hrest). unfold walk. f_equal.
    cbn. by rewrite Hnd.
Qed.

Lemma is_list_valid (h : store) (nodes : list loc) :
  ∀ (head : ref) (k : nat), is_list h head nodes → valid h (walk h k head).
Proof.
  induction nodes as [|p rest IH]; intros head k Hl.
  - cbn in Hl. subst head. by rewrite walk_None.
  - destruct Hl as (-> & nd & Hnd & Hrest). destruct k as [|k].
    + cbn. by rewrite Hnd.
    + unfold walk. rewrite Nat.iter_succ_r.
      replace (follow h (Some p)) with (next nd) by (cbn; by rewrite Hnd).
      apply (IH (next nd) k Hrest).
Qed.

(** ** Termination of the remaining array and string loops *)

(** [two_sum_sorted] ends on every list, sorted or not. *)
Lemma two_sum_loop_terminates (arr : list Z) (target : Z) :
  ∀ (n : nat) (left right : Z),
    0 ≤ left → right < len arr → right - left ≤ Z.of_nat n →
    ∃ r, ∀ fuel, (n < fuel)%nat →
      two_sum_loop fuel arr target left right = Ok r.
Proof.
  induction n as [|n IH]; intros left right Hl Hr Hn;
    (destruct (Z.ltb_spec left right) as [Hlr|Hlr];
     [|exists None; intros [|fuel] ?; [lia|]; cbn [two_sum_loop]; by zbool]);
    [lia|].
  destruct (getitem_in_range arr left) as (x & _ & Hgx); [lia|].
  destruct (getitem_in_range arr right) as (y & _ & Hgy); [lia|].
  destruct (IH (left + 1) right) as (r1 & Hr1); [lia..|].
  destruct (IH left (right - 1)) as (r2 & Hr2); [lia..|].
  exists (if x + y =? target then Some (x, y)
          else if x + y <? target then r1 else r2).
  intros [|fuel] ?; [lia|]. cbn [two_sum_loop].
  rewrite (proj2 (Z.ltb_lt _ _) Hlr), Hgx, Hgy. run_bind. cbv zeta.
  destruct (x + y =? target); [done|].
  destruct (x + y <? target); [apply Hr1|apply Hr2]; lia.
Qed.

Lemma two_sum_sorted_terminates (arr : list Z) (target : Z) :
  ∃ r, returns (λ fuel, two_sum_sorted fuel arr target) r.
Proof.
  destruct (two_sum_loop_terminates arr target (length arr) 0 (len arr - 1))
    as (r & Hr); [unfold len; lia..|].
  exists r. by apply (returns_from _ _ (S (length arr))).
Qed.

Lemma max_area_loop_terminates (height : list Z) :
  ∀ (n : nat) (left right best : Z),
    0 ≤ left → right < len height → right - left ≤ Z.of_nat n →
    ∃ r, ∀ fuel, (n < fuel)%nat →
      max_area_loop fuel height left right best = Ok r.
Proof.
  induction n as [|n IH]; intros left right best Hl Hr Hn;
    (destruct (Z.ltb_spec left right) as [Hlr|Hlr];
     [|exists best; intros [|fuel] ?; [lia|]; cbn [max_area_loop]; by zbool]);
    [lia|].
  destruct (getitem_in_range height left) as (x & _ & Hgx); [lia|].
  destruct (getitem_in_range height right) as (y & _ & Hgy); [lia|].
  set (best' := Z.max best (Z.min x y * (right - left))).
  destruct (IH (left + 1) right best') as (r1 & Hr1); [lia..|].
  destruct (IH left (right - 1) best') as (r2 & Hr2); [lia..|].
  exists (if x <? y then r1 else r2).
  intros [|fuel] ?; [lia|]. cbn [max_area_loop].
  rewrite (proj2 (Z.ltb_lt _ _) Hlr), Hgx, Hgy. run_bind. cbv zeta. fold best'.
  destruct (x <? y); [apply Hr1|apply Hr2]; lia.
Qed.

Lemma max_area_terminates (height : list Z) :
  ∃ r, returns (λ fuel, max_area fuel height) r.
Proof.
  destruct (max_area_loop_terminates height (length height) 0
              (len height - 1) 0) as (r & Hr); [unfold len; lia..|].
  exists r. by apply (returns_from _ _ (S (length height))).
Qed.

Lemma setitem_in_range {A} (l : list A) (i : Z) (x : A) :
  0 ≤ i < len l →
  ∃ l', setitem l i x = Ok l' ∧ len l' = len l.
Proof.
  intros Hi. exists (<[Z.to_nat i := x]> l). split.
  - unfold setitem. by zbool.
  - unfold len. by rewrite length_insert.
Qed.

Lemma reverse_loop_terminates :
  ∀ (n : nat) (s : list ascii) (left right : Z),
    0 ≤ left → right < len s → right - left ≤ Z.of_nat n →
    ∃ r, ∀ fuel, (n < fuel)%nat → reverse_loop fuel s left right = Ok r.
Proof.
  induction n as [|n IH]; intros s left right Hl Hr Hn;
    (destruct (Z.ltb_spec left right) as [Hlr|Hlr];
     [|exists s; intros [|fuel] ?; [lia|]; cbn [reverse_loop]; by zbool]);
    [lia|].
  destruct (getitem_in_range s right) as (a & _ & Hga); [lia|].
  destruct (getitem_in_range s left) as (b & _ & Hgb); [lia|].
  destruct (setitem_in_range s left a) as (s1 & Hs1 & Hlen1); [lia|].
  destruct (setitem_in_range s1 right b) as (s2 & Hs2 & Hlen2); [lia|].
  destruct (IH s2 (left + 1) (right - 1)) as (r & Hrun); [lia..|].
  exists r. intros [|fuel] ?; [lia|]. cbn [reverse_loop].
  rewrite (proj2 (Z.ltb_lt _ _) Hlr), Hga, Hgb. run_bind.
  rewrite Hs1. run_bind. rewrite Hs2. run_bind. apply Hrun. lia.
Qed.

Lemma reverse_string_terminates (s : string) :
  ∃ r, returns (λ fuel, reverse_string fuel s) r.
Proof.
  set (l := list_ascii_of_string s).
  destruct (reverse_loop_terminates (length l) l 0 (len l - 1))
    as (r & Hr); [unfold len; lia..|].
  exists (string_of_list_ascii r). apply (returns_from _ _ (S (length l))).
  intros fuel Hfuel. unfold reverse_string. fold l. by rewrite Hr by lia.
Qed.

(** ** Specification of the linked-list operations *)

Lemma closed_walk_valid (h : store) (head : ref) :
  closed h → valid h head → ∀ k, valid h (walk h k head).
Proof. intros Hc Hv k. by apply walk_valid. Qed.

Lemma cycle_entry_unique (h : store) (head : ref) (e e' : loc) :
  cycle_entry h head e → cycle_entry h head e' → e = e'.
Proof.
  intros (mu & He & Hon & Hmin) (mu' & He' & Hon' & Hmin').
  destruct (Nat.lt_trichotomy mu mu') as [Hlt|[->|Hgt]].
  - destruct (Hmin' mu e Hlt He Hon).
  - congruence.
  - destruct (Hmin mu' e' Hgt He' Hon').
Qed.

Lemma store_ring_cyclic : cyclic store_ring (Some 0%nat).
Proof.
  exists 1%nat, 1%nat. split; [reflexivity|].
  exists 3%nat. split; [lia|reflexivity].
Qed.

(** In the ring of the unit test the head is not on the cycle: after the
    first link the walk stays on the nodes 1, 2 and 3. *)
Lemma store_ring_walk (k : nat) :
  walk store_ring (S k) (Some 0%nat) = Some 1%nat ∨
  walk store_ring (S k) (Some 0%nat) = Some 2%nat ∨
  walk store_ring (S k) (Some 0%nat) = Some 3%nat.
Proof.
  induction k as [|k IH]; [by left|].
  rewrite walk_S. destruct IH as [-> | [-> | ->]]; vm_compute; tauto.
Qed.

Lemma store_ring_entry : cycle_entry store_ring (Some 0%nat) 1%nat.
Proof.
  exists 1%nat. split; [reflexivity|]. split.
  - exists 3%nat. split; [lia|reflexivity].
  - intros k q Hk Hq (l & Hl & Hback).
    assert (k = 0%nat) as -> by lia. cbn in Hq. injection Hq as <-.
    destruct l as [|l]; [lia|].
    destruct (store_ring_walk l) as [H|[H|H]]; congruence.
Qed.

Lemma store_two_not_cyclic : ¬ cyclic store_two (Some 0%nat).
Proof. by apply (end_not_cyclic store_two (Some 0%nat) 2). Qed.

Lemma store_ring_closed : closed store_ring ∧ valid store_ring (Some 0%nat).
Proof. split; apply (bool_decide_unpack _); by vm_compute. Qed.

Lemma store_two_closed : closed store_two ∧ valid store_two (Some 0%nat).
Proof. split; apply (bool_decide_unpack _); by vm_compute. Qed.

Lemma store_self_cyclic : cyclic store_self (Some 0%nat).
Proof.
  exists 0%nat, 0%nat. split; [reflexivity|].
  exists 1%nat. split; [lia|reflexivity].
Qed.

(** C7: in a closed store, [has_cycle] returns true if and only if some node
    reachable from [head] lies on a cycle of the [next] relation.  For an
    absent head it returns false at the first loop test without reading any
    link: the result is the same in every store, also in the empty store,
    where every read of a [next] link raises. *)
Theorem has_cycle_correct :
  (∀ (h : store) (head : ref),
      closed h → valid h head →
      ∃ b : bool,
        returns (λ fuel, has_cycle fuel h head) b ∧
        (b = true ↔ cyclic h head)) ∧
  (∀ (h : store) (fuel : nat), has_cycle (S fuel) h None = Ok false) ∧
  (∀ r : ref, get_next ∅ r = Raise AttributeError).
Proof.
  split; [|split; [done|by intros [p|]]].
  intros h head Hc Hv.
  pose proof (closed_walk_valid h head Hc Hv) as Hwalk.
  destruct (ends_or_cyclic h head Hwalk) as [Hend|Hcyc].
  - exists false. split; [by apply (has_cycle_ends h head Hwalk (size h))|].
    split; [done|]. intros Hcyc. by destruct (end_not_cyclic h head _ Hend).
  - exists true. split; [by apply has_cycle_cyclic|done].
Qed.

(** The statement above on the inputs of the unit tests. *)
Lemma has_cycle_correct_witness :
  returns (λ fuel, has_cycle fuel store_ring (Some 0%nat)) true ∧
  returns (λ fuel, has_cycle fuel store_two (Some 0%nat)) false.
Proof.
  split.
  - destruct (proj1 has_cycle_correct store_ring (Some 0%nat))
      as (b & Hret & Hb); [apply store_ring_closed..|].
    by rewrite (proj2 Hb store_ring_cyclic) in Hret.
  - destruct (proj1 has_cycle_correct store_two (Some 0%nat))
      as (b & Hret & Hb); [apply store_two_closed..|].
    destruct b; [|exact Hret].
    destruct (store_two_not_cyclic (proj1 Hb eq_refl)).
Defined.

(** C3: in a closed store, if the list reachable from [head] contains a
    cycle, [detect_cycle_start] returns the entry node of the cycle, the
    first node on a cycle met when walking from [head] (there is only one
    such node); if there is no cycle it returns [None], and so it does for
    an absent head. *)
Theorem detect_cycle_start_correct :
  (∀ (h : store) (head : ref),
      closed h → valid h head →
      (cyclic h head →
       ∃ e : loc,
         returns (λ fuel, detect_cycle_start fuel h head) (Some e) ∧
         cycle_entry h head e ∧
         ∀ e', cycle_entry h head e' → e' = e) ∧
      (¬ cyclic h head →
       returns (λ fuel, detect_cycle_start fuel h head) None)) ∧
  (∀ h : store, returns (λ fuel, detect_cycle_start fuel h None) None).
Proof.
  split.
  - intros h head Hc Hv.
    pose proof (closed_walk_valid h head Hc Hv) as Hwalk. split.
    + intros Hcyc.
      destruct (detect_cycle_start_cyclic h head Hwalk Hcyc) as (e & Hret & He).
      exists e. split; [done|]. split; [done|].
      intros e' He'. by apply (cycle_entry_unique h head).
    + intros Hno. destruct (ends_or_cyclic h head Hwalk) as [Hend|Hcyc]; [|done].
      by apply (detect_cycle_start_ends h head Hwalk (size h)).
  - intros h. apply (detect_cycle_start_ends h None) with (n := 0%nat); [|done].
    intros k. by rewrite walk_None.
Qed.

(** The statement above on the inputs of the unit tests. *)
Lemma detect_cycle_start_correct_witness :
  returns (λ fuel, detect_cycle_start fuel store_ring (Some 0%nat))
    (Some 1%nat) ∧
  val <$> store_ring !! 1%nat = Some 2 ∧
  returns (λ fuel, detect_cycle_start fuel store_two (Some 0%nat)) None.
Proof.
  split; [|split; [reflexivity|]].
  - destruct (proj1 detect_cycle_start_correct store_ring (Some 0%nat))
      as [Hcyc _]; [apply store_ring_closed..|].
    destruct (Hcyc store_ring_cyclic) as (e & Hret & _ & Hunique).
    by rewrite <- (Hunique 1%nat store_ring_entry) in Hret.
  - destruct (proj1 detect_cycle_start_correct store_two (Some 0%nat))
      as [_ Hno]; [apply store_two_closed..|].
    exact (Hno store_two_not_cyclic).
Defined.

(** C8: for every acyclic list of [n ≥ 1] nodes, [find_middle] returns the
    node at 0-based index [n / 2] (for even [n] the second of the two middle
    nodes); for an absent head it returns the absent reference. *)
Theorem find_middle_correct :
  (∀ (h : store) (head : ref) (nodes : list loc),
      is_list h head nodes → (1 ≤ length nodes)%nat →
      ∃ p : loc,
        nodes !! (length nodes / 2)%nat = Some p ∧
        returns (λ fuel, find_middle fuel h head) (Some p)) ∧
  (∀ h : store, returns (λ fuel, find_middle fuel h None) None).
Proof.
  split.
  - intros h head nodes Hl Hn.
    destruct (lookup_lt_is_Some_2 nodes (length nodes / 2)) as [p Hp].
    { apply Nat.div_lt; lia. }
    exists p. split; [done|].
    rewrite <- Hp, <- (is_list_walk h nodes head _ Hl).
    apply find_middle_ends.
    + intros k. by apply (is_list_valid h nodes).
    + rewrite (is_list_walk h nodes head _ Hl). by apply lookup_ge_None_2.
    + intros k Hk. rewrite (is_list_walk h nodes head _ Hl).
      by apply lookup_lt_is_Some_2.
  - intros h.
    apply (find_middle_ends h None) with (n := 0%nat); [|done|intros; lia].
    intros k. by rewrite walk_None.
Qed.

(** The statement above on the inputs of the unit tests. *)
Lemma find_middle_correct_witness :
  (∃ p : loc,
      returns (λ fuel, find_middle fuel store_five (Some 0%nat)) (Some p) ∧
      val <$> store_five !! p = Some 3) ∧
  (∃ p : loc,
      returns (λ fuel, find_middle fuel store_four (Some 0%nat)) (Some p) ∧
      val <$> store_four !! p = Some 3).
Proof.
  split.
  - destruct (proj1 find_middle_correct store_five (Some 0%nat)
                [0; 1; 2; 3; 4]%nat) as (p & Hp & Hret).
    + cbn. repeat (split; [reflexivity|]; eexists; split; [reflexivity|]).
      reflexivity.
    + cbn. lia.
    + exists p. split; [exact Hret|].
      cbn in Hp. injection Hp as <-. reflexivity.
  - destruct (proj1 find_middle_correct store_four (Some 0%nat)
                [0; 1; 2; 3]%nat) as (p & Hp & Hret).
    + cbn. repeat (split; [reflexivity|]; eexists; split; [reflexivity|]).
      reflexivity.
    + cbn. lia.
    + exists p. split; [exact Hret|].
      cbn in Hp. injection Hp as <-. reflexivity.
Defined.

(** ** Termination of every operation *)

(** C2 (as stated, refuted): [find_middle] does not terminate on the
    one-node structure whose [next] link points back to the node itself: no
    amount of fuel lets the call finish, so it returns nothing. *)
Lemma find_middle_self_loop_diverges :
  closed store_self ∧ valid store_self (Some 0%nat) ∧
  diverges (λ fuel, find_middle fuel store_self (Some 0%nat)) ∧
  ∀ r, ¬ returns (λ fuel, find_middle fuel store_self (Some 0%nat)) r.
Proof.
  assert (Hc : closed store_self) by (apply (bool_decide_unpack _); by vm_compute).
  assert (Hv : valid store_self (Some 0%nat))
    by (apply (bool_decide_unpack _); by vm_compute).
  assert (Hd : diverges (λ fuel, find_middle fuel store_self (Some 0%nat))).
  { apply find_middle_cyclic; [by apply closed_walk_valid|].
    apply store_self_cyclic. }
  split; [done|]. split; [done|]. split; [done|].
  intros r. by apply diverges_not_returns.
Qed.

(** C2 (amended): every operation is a deterministic computation that
    terminates on every finite input, with one exception: [find_middle]
    terminates when no cycle is reachable from [head] and runs forever when
    one is.  [has_cycle] and [detect_cycle_start] terminate on every closed
    store, cyclic or not. *)
Theorem operations_terminate :
  (∀ (arr : list Z) (target : Z),
      ∃ r, returns (λ fuel, two_sum_sorted fuel arr target) r) ∧
  (∀ arr : list Z, ∃ r, returns (λ _, remove_duplicates arr) r) ∧
  (∀ s : string, ∃ r, returns (λ fuel, reverse_string fuel s) r) ∧
  (∀ height : list Z, ∃ r, returns (λ fuel, max_area fuel height) r) ∧
  (∀ s : string,
      ∃ r, returns (λ fuel, length_of_longest_substring fuel s) r) ∧
  (∀ a b : list Z, ∃ r, returns (λ fuel, merge_sorted_arrays fuel a b) r) ∧
  (∀ (h : store) (head : ref),
      closed h → valid h head →
      (∃ r, returns (λ fuel, has_cycle fuel h head) r) ∧
      (∃ r, returns (λ fuel, detect_cycle_start fuel h head) r) ∧
      (¬ cyclic h head → ∃ r, returns (λ fuel, find_middle fuel h head) r) ∧
      (cyclic h head → diverges (λ fuel, find_middle fuel h head))) ∧
  (∀ (A : Type) (run : nat → res A) (v w : A),
      returns run v → returns run w → v = w).
Proof.
  split; [apply two_sum_sorted_terminates|].
  split.
  { intros arr. eexists. apply returns_const, remove_duplicates_result. }
  split; [apply reverse_string_terminates|].
  split; [apply max_area_terminates|].
  split.
  { intros s. destruct (length_of_longest_substring_spec s) as (m & Hrun & _).
    exists (Z.of_nat m).
    by apply (returns_from _ _ (S (length (list_ascii_of_string s)))). }
  split.
  { intros a b. eexists. apply merge_sorted_arrays_returns. }
  split; [|intros A run v w; apply returns_inj].
  intros h head Hc Hv.
  pose proof (closed_walk_valid h head Hc Hv) as Hwalk.
  destruct (ends_or_cyclic h head Hwalk) as [Hend|Hcyc].
  - split; [eexists; by apply (has_cycle_ends h head Hwalk (size h))|].
    split; [eexists; by apply (detect_cycle_start_ends h head Hwalk (size h))|].
    split; [|intros Hcyc; by destruct (end_not_cyclic h head _ Hend)].
    intros _.
    destruct (least_nat (λ n, walk h n head = None) (size h) Hend)
      as (n & Hn & _ & Hleast).
    eexists. apply (find_middle_ends h head Hwalk n Hn).
    intros k Hk. specialize (Hleast k Hk).
    by destruct (walk h k head).
  - split; [eexists; by apply has_cycle_cyclic|].
    split.
    { destruct (detect_cycle_start_cyclic h head Hwalk Hcyc) as (e & Hret & _).
      by eexists. }
    split; [done|]. intros _. by apply find_middle_cyclic.
Qed.

(** The statement above on the inputs of the unit tests. *)
Lemma operations_terminate_witness :
  (∃ r, returns (λ fuel, has_cycle fuel store_ring (Some 0%nat)) r) ∧
  (∃ r, returns (λ fuel, detect_cycle_start fuel store_ring (Some 0%nat)) r) ∧
  diverges (λ fuel, find_middle fuel store_ring (Some 0%nat)) ∧
  (∃ r, returns (λ fuel, find_middle fuel store_two (Some 0%nat)) r).
Proof.
  destruct operations_terminate as (_ & _ & _ & _ & _ & _ & Hlist & _).
  destruct (Hlist store_ring (Some 0%nat)) as (Hhas & Hdet & _ & Hdiv);
    [apply store_ring_closed..|].
  destruct (Hlist store_two (Some 0%nat)) as (_ & _ & Hmid & _);
    [apply store_two_closed..|].
  split; [exact Hhas|]. split; [exact Hdet|]. split.
  - apply Hdiv, store_ring_cyclic.
  - apply Hmid, store_two_not_cyclic.
Defined.

(** ** [reverse_string] *)

Lemma reverse_inv_done (l s : list ascii) (k : nat) :
  reverse_inv l k s → (length l ≤ 2 * k + 1)%nat → (2 * k ≤ length l)%nat →
  s = reverse l.
Proof.
  intros [Hlen Hs] Hk Hk'.
  apply (list_eq_same_length _ _ (length l)); [by rewrite length_reverse|done|].
  intros i x y Hi Hx Hy. rewrite Hs in Hx by done.
  rewrite reverse_lookup in Hy by done.
  replace (length l - S i)%nat with (length l - 1 - i)%nat in Hy by lia.
  case_decide as Hmid; [congruence|].
  replace (length l - 1 - i)%nat with i in Hy by lia. congruence.
Qed.

(** One swap keeps the invariant. *)
Lemma reverse_inv_step (l s : list ascii) (k : nat) (a b : ascii) :
  reverse_inv l k s → (2 * k + 1 < length l)%nat →
  l !! (length l - 1 - k)%nat = Some a → l !! k = Some b →
  reverse_inv l (S k) (<[(length l - 1 - k)%nat := b]> (<[k := a]> s)).
Proof.
  intros [Hlen Hs] Hk Ha Hb. split; [by rewrite !length_insert|].
  intros i Hi.
  destruct (decide (i = length l - 1 - k)%nat) as [->|Hne1].
  { rewrite list_lookup_insert_eq by (rewrite length_insert; lia).
    rewrite decide_True by lia.
    by replace (length l - 1 - (length l - 1 - k))%nat with k by lia. }
  rewrite list_lookup_insert_ne by done.
  destruct (decide (i = k)) as [->|Hne2].
  { rewrite list_lookup_insert_eq by lia. by rewrite decide_True by lia. }
  rewrite list_lookup_insert_ne by done. rewrite Hs by done.
  destruct (decide (i < k ∨ length l - k ≤ i)%nat).
  - by rewrite decide_True by lia.
  - by rewrite decide_False by lia.
Qed.

Lemma reverse_loop_spec (l : list ascii) (fuel : nat) :
  ∀ (k : nat) (s : list ascii),
    reverse_inv l k s → (2 * k ≤ length l)%nat →
    (length l - 2 * k < fuel)%nat →
    reverse_loop fuel s (Z.of_nat k) (len l - 1 - Z.of_nat k)
      = Ok (reverse l).
Proof.
  induction fuel as [|fuel IH]; intros k s Hinv Hk Hfuel; [lia|].
  cbn [reverse_loop]. unfold len.
  destruct (Z.ltb_spec (Z.of_nat k) (Z.of_nat (length l) - 1 - Z.of_nat k))
    as [Hlt|Hge].
  - destruct (lookup_lt_is_Some_2 l (length l - 1 - k)) as [a Ha]; [lia|].
    destruct (lookup_lt_is_Some_2 l k) as [b Hb]; [lia|].
    pose proof Hinv as [Hlen Hs].
    assert (Hsa : s !! (length l - 1 - k)%nat = Some a).
    { rewrite Hs by lia. by rewrite decide_False by lia. }
    assert (Hsb : s !! k = Some b).
    { rewrite Hs by lia. by rewrite decide_False by lia. }
    replace (Z.of_nat (length l) - 1 - Z.of_nat k)
      with (Z.of_nat (length l - 1 - k)) by lia.
    rewrite (getitem_nat s _ a Hsa), (getitem_nat s k b Hsb). run_bind.
    rewrite setitem_nat by lia. run_bind.
    rewrite setitem_nat by (rewrite length_insert; lia). run_bind.
    replace (Z.of_nat k + 1) with (Z.of_nat (S k)) by lia.
    replace (Z.of_nat (length l - 1 - k) - 1)
      with (len l - 1 - Z.of_nat (S k)) by (unfold len; lia).
    apply IH; [|lia|lia].
    apply reverse_inv_step; [done|lia|done..].
  - f_equal. apply (reverse_inv_done l s k); [done|lia|lia].
Qed.

Lemma reverse_string_returns (s : string) :
  returns (λ fuel, reverse_string fuel s)
    (string_of_list_ascii (reverse (list_ascii_of_string s))).
Proof.
  set (l := list_ascii_of_string s).
  apply (returns_from _ _ (S (length l))). intros fuel Hfuel.
  unfold reverse_string. fold l.
  assert (Hrun : reverse_loop fuel l 0 (len l - 1) = Ok (reverse l)).
  { replace (len l - 1) with (len l - 1 - Z.of_nat 0) by lia.
    apply (reverse_loop_spec l fuel 0 l); [|lia|lia].
    split; [done|]. intros i Hi. by rewrite decide_False by lia. }
  by rewrite Hrun.
Qed.

Lemma string_length_list (s : string) :
  String.length s = length (list_ascii_of_string s).
Proof. induction s as [|c s IH]; [done|]. cbn. by rewrite IH. Qed.

Lemma string_get_list (s : string) (i : nat) :
  String.get i s = list_ascii_of_string s !! i.
Proof.
  revert i. induction s as [|c s IH]; intros i; [by destruct i|].
  destruct i as [|i]; [done|]. cbn. apply IH.
Qed.

(** X1: for every string, [reverse_string] returns the string with its
    characters in the opposite order: the result has the same length, and
    its character at index [i] is the character of the input at index
    [len(s) - 1 - i]. *)
Theorem reverse_string_reverses (s : string) :
  ∃ r : string,
    returns (λ fuel, reverse_string fuel s) r ∧
    list_ascii_of_string r = reverse (list_ascii_of_string s) ∧
    String.length r = String.length s ∧
    ∀ i : nat,
      (i < String.length s)%nat →
      String.get i r = String.get (String.length s - 1 - i) s.
Proof.
  exists (string_of_list_ascii (reverse (list_ascii_of_string s))).
  split; [apply reverse_string_returns|].
  rewrite !string_length_list, list_ascii_of_string_of_list_ascii.
  split; [done|]. split; [apply length_reverse|].
  intros i Hi.
  rewrite !string_get_list, list_ascii_of_string_of_list_ascii.
  rewrite reverse_lookup by done. f_equal. lia.
Qed.

(** The statement above on the inputs of the unit tests. *)
Lemma reverse_string_reverses_witness :
  returns (λ fuel, reverse_string fuel "hello") "olleh" ∧
  returns (λ fuel, reverse_string fuel "") "".
Proof.
  split.
  - destruct (reverse_string_reverses "hello") as (r & Hret & Hr & _).
    replace r with "olleh" in Hret; [exact Hret|].
    rewrite <- (string_of_list_ascii_of_string r), Hr. reflexivity.
  - destruct (reverse_string_reverses "") as (r & Hret & Hr & _).
    replace r with "" in Hret; [exact Hret|].
    rewrite <- (string_of_list_ascii_of_string r), Hr. reflexivity.
Defined.

(** X2: reversing twice gives the string back: the call on the result of a
    call returns the original string. *)
Theorem reverse_string_involutive (s : string) :
  ∃ r : string,
    returns (λ fuel, reverse_string fuel s) r ∧
    returns (λ fuel, reverse_string fuel r) s.
Proof.
  exists (string_of_list_ascii (reverse (list_ascii_of_string s))).
  split; [apply reverse_string_returns|].
  pose proof (reverse_string_returns
                (string_of_list_ascii (reverse (list_ascii_of_string s))))
    as Hret.
  by rewrite list_ascii_of_string_of_list_ascii, reverse_involutive,
    string_of_list_ascii_of_string in Hret.
Qed.

(** ** [max_area] *)

(** The loop on the window [left .. right], entered with a running maximum
    [best ≥ 0]: the result is at least [best], bounds the area of every pair
    of the window, and is [best] or the area of some pair. *)
Lemma max_area_loop_spec (height : list Z) :
  ∀ (n : nat) (left right best : Z),
    0 ≤ left → right < len height → right - left ≤ Z.of_nat n → 0 ≤ best →
    ∃ r,
      (∀ fuel, (n < fuel)%nat →
         max_area_loop fuel height left right best = Ok r) ∧
      best ≤ r ∧
      (∀ (i j : nat) (x y : Z),
          left ≤ Z.of_nat i → (i < j)%nat → Z.of_nat j ≤ right →
          height !! i = Some x → height !! j = Some y →
          Z.min x y * (Z.of_nat j - Z.of_nat i) ≤ r) ∧
      (r = best ∨
       ∃ (i j : nat) (x y : Z),
         (i < j)%nat ∧ height !! i = Some x ∧ height !! j = Some y ∧
         r = Z.min x y * (Z.of_nat j - Z.of_nat i)).
Proof.
  induction n as [|n IH]; intros left right best Hl Hr Hn Hbest;
    (destruct (Z.ltb_spec left right) as [Hlr|Hlr];
     [|exists best; split;
       [intros [|fuel] ?; [lia|]; cbn [max_area_loop]; by zbool
       |split; [lia|split; [intros; lia|by apply or_introl]]]]); [lia|].
  destruct (getitem_in_range height left) as (x & Hx & Hgx); [lia|].
  destruct (getitem_in_range height right) as (y & Hy & Hgy); [lia|].
  set (cur := Z.min x y * (right - left)).
  set (best' := Z.max best cur).
  assert (Hstep : ∀ fuel,
    max_area_loop (S fuel) height left right best =
    if x <? y then max_area_loop fuel height (left + 1) right best'
    else max_area_loop fuel height left (right - 1) best').
  { intros fuel. cbn [max_area_loop].
    by rewrite (proj2 (Z.ltb_lt _ _) Hlr), Hgx, Hgy. }
  assert (Hhere : best' = best ∨
            ∃ (i j : nat) (x0 y0 : Z),
              (i < j)%nat ∧ height !! i = Some x0 ∧ height !! j = Some y0 ∧
              best' = Z.min x0 y0 * (Z.of_nat j - Z.of_nat i)).
  { destruct (Z.max_spec best cur) as [[_ Hm]|[_ Hm]]; [|by apply or_introl].
    apply or_intror. exists (Z.to_nat left), (Z.to_nat right), x, y.
    split; [lia|]. split; [done|]. split; [done|].
    subst best' cur. rewrite Hm. f_equal. lia. }
  destruct (Z.ltb_spec x y) as [Hxy|Hxy].
  - destruct (IH (left + 1) right best') as (r & Hrun & Hge & Hall & Hatt);
      [lia..|].
    exists r. split; [|split; [lia|split]].
    + intros [|fuel] ?; [lia|]. rewrite Hstep. apply Hrun. lia.
    + intros i j xi yj Hi Hij Hj Hxi Hyj.
      destruct (decide (Z.of_nat i = left)) as [Heq|Hne];
        [|apply Hall; [lia|done|lia|done..]].
      subst left. rewrite Nat2Z.id in Hx. simplify_eq.
      destruct (Z.le_gt_cases 0 x) as [Hpos|Hneg].
      * assert (Z.min x yj * (Z.of_nat j - Z.of_nat i)
                ≤ x * (right - Z.of_nat i)); [|subst best' cur; lia].
        transitivity (x * (Z.of_nat j - Z.of_nat i)).
        -- apply Z.mul_le_mono_nonneg_r; lia.
        -- apply Z.mul_le_mono_nonneg_l; lia.
      * assert (Z.min x yj * (Z.of_nat j - Z.of_nat i) ≤ 0); [|lia].
        apply Z.mul_nonpos_nonneg; lia.
    + destruct Hatt as [->|Hatt]; [exact Hhere|by apply or_intror].
  - destruct (IH left (right - 1) best') as (r & Hrun & Hge & Hall & Hatt);
      [lia..|].
    exists r. split; [|split; [lia|split]].
    + intros [|fuel] ?; [lia|]. rewrite Hstep. apply Hrun. lia.
    + intros i j xi yj Hi Hij Hj Hxi Hyj.
      destruct (decide (Z.of_nat j = right)) as [Heq|Hne];
        [|apply Hall; [lia|done|lia|done..]].
      subst right. rewrite Nat2Z.id in Hy. simplify_eq.
      destruct (Z.le_gt_cases 0 y) as [Hpos|Hneg].
      * assert (Z.min xi y * (Z.of_nat j - Z.of_nat i)
                ≤ y * (Z.of_nat j - left)); [|subst best' cur; lia].
        transitivity (y * (Z.of_nat j - Z.of_nat i)).
        -- apply Z.mul_le_mono_nonneg_r; lia.
        -- apply Z.mul_le_mono_nonneg_l; lia.
      * assert (Z.min xi y * (Z.of_nat j - Z.of_nat i) ≤ 0); [|lia].
        apply Z.mul_nonpos_nonneg; lia.
    + destruct Hatt as [->|Hatt]; [exact Hhere|by apply or_intror].
Qed.

(** X3: for every list of integers, [max_area] returns the largest value of
    [min(height[i], height[j]) * (j - i)] over all pairs of indices [i < j],
    or 0 when that is larger (in particular when the list has fewer than two
    elements): the result is never negative, no pair has a larger area, and
    a non-zero result is the area of some pair. *)
Theorem max_area_optimal (height : list Z) :
  ∃ r : Z,
    returns (λ fuel, max_area fuel height) r ∧
    0 ≤ r ∧
    (∀ (i j : nat) (x y : Z),
        (i < j)%nat → height !! i = Some x → height !! j = Some y →
        Z.min x y * (Z.of_nat j - Z.of_nat i) ≤ r) ∧
    (r = 0 ∨
     ∃ (i j : nat) (x y : Z),
       (i < j)%nat ∧ height !! i = Some x ∧ height !! j = Some y ∧
       r = Z.min x y * (Z.of_nat j - Z.of_nat i)) ∧
    ((length height < 2)%nat → r = 0).
Proof.
  destruct (max_area_loop_spec height (length height) 0 (len height - 1) 0)
    as (r & Hrun & Hge & Hall & Hatt); [unfold len; lia..|].
  exists r. split; [by apply (returns_from _ _ (S (length height)))|].
  split; [done|]. split; [|split; [done|]].
  - intros i j x y Hij Hx Hy. apply (Hall i j x y); [lia|done| |done..].
    apply lookup_lt_Some in Hy. unfold len. lia.
  - intros Hshort. destruct Hatt as [->|(i & j & x & y & Hij & Hx & Hy & _)];
      [done|].
    apply lookup_lt_Some in Hy. lia.
Qed.

(** The statement above on the inputs of the unit tests. *)
Lemma max_area_optimal_witness :
  (∃ r : Z,
      returns (λ fuel, max_area fuel [1; 8; 6; 2; 5; 4; 8; 3; 7]) r ∧
      49 ≤ r) ∧
  returns (λ fuel, max_area fuel [5]) 0.
Proof.
  split.
  - destruct (max_area_optimal [1; 8; 6; 2; 5; 4; 8; 3; 7])
      as (r & Hret & _ & Hall & _).
    exists r. split; [exact Hret|].
    apply (Hall 1%nat 8%nat 8 7); [lia|reflexivity..].
  - destruct (max_area_optimal [5]) as (r & Hret & _ & _ & _ & Hshort).
    rewrite Hshort in Hret; [exact Hret|cbn; lia].
Defined.

(** ** More on [two_sum_sorted] *)

(** On any list, sorted or not, a returned pair sits at two indices of the
    window and sums to [target]. *)
Lemma two_sum_loop_sound (arr : list Z) (target : Z) :
  ∀ (n : nat) (left right : Z),
    0 ≤ left → right < len arr → right - left ≤ Z.of_nat n →
    ∃ r,
      (∀ fuel, (n < fuel)%nat →
         two_sum_loop fuel arr target left right = Ok r) ∧
      ∀ x y : Z,
        r = Some (x, y) →
        ∃ i j : nat,
          left ≤ Z.of_nat i ∧ (i < j)%nat ∧ Z.of_nat j ≤ right ∧
          arr !! i = Some x ∧ arr !! j = Some y ∧ x + y = target.
Proof.
  induction n as [|n IH]; intros left right Hl Hr Hn;
    (destruct (Z.ltb_spec left right) as [Hlr|Hlr];
     [|exists None; split;
       [intros [|fuel] ?; [lia|]; cbn [two_sum_loop]; by zbool|done]]);
    [lia|].
  destruct (getitem_in_range arr left) as (x & Hx & Hgx); [lia|].
  destruct (getitem_in_range arr right) as (y & Hy & Hgy); [lia|].
  assert (Hstep : ∀ fuel,
    two_sum_loop (S fuel) arr target left right =
    if x + y =? target then Ok (Some (x, y))
    else if x + y <? target then two_sum_loop fuel arr target (left + 1) right
    else two_sum_loop fuel arr target left (right - 1)).
  { intros fuel. cbn [two_sum_loop].
    by rewrite (proj2 (Z.ltb_lt _ _) Hlr), Hgx, Hgy. }
  destruct (Z.eqb_spec (x + y) target) as [Heq|Hne].
  { exists (Some (x, y)). split.
    - intros [|fuel] ?; [lia|]. by rewrite Hstep.
    - intros x' y' [= <- <-].
      exists (Z.to_nat left), (Z.to_nat right).
      repeat split; [lia|lia|lia|done|done|done]. }
  destruct (Z.ltb_spec (x + y) target) as [Hlt|Hge].
  - destruct (IH (left + 1) right) as (r & Hrun & Hr'); [lia..|].
    exists r. split.
    + intros [|fuel] ?; [lia|]. rewrite Hstep. apply Hrun. lia.
    + intros x' y' Hxy. destruct (Hr' x' y' Hxy) as (i & j & ? & ? & ? & ?).
      exists i, j. repeat split; [lia|done|lia|tauto..].
  - destruct (IH left (right - 1)) as (r & Hrun & Hr'); [lia..|].
    exists r. split.
    + intros [|fuel] ?; [lia|]. rewrite Hstep. apply Hrun. lia.
    + intros x' y' Hxy. destruct (Hr' x' y' Hxy) as (i & j & ? & ? & ? & ?).
      exists i, j. repeat split; [lia|done|lia|tauto..].
Qed.

(** X4: on every list, sorted or not, [two_sum_sorted] returns [None] or a
    pair of values found at two indices [i < j] of the list, in that order,
    whose sum is [target]; on a list with fewer than two elements it
    returns [None]. *)
Theorem two_sum_sorted_sound (arr : list Z) (target : Z) :
  ∃ r,
    returns (λ fuel, two_sum_sorted fuel arr target) r ∧
    (∀ x y : Z,
        r = Some (x, y) →
        ∃ i j : nat,
          (i < j)%nat ∧ arr !! i = Some x ∧ arr !! j = Some y ∧
          x + y = target) ∧
    ((length arr < 2)%nat → r = None).
Proof.
  destruct (two_sum_loop_sound arr target (length arr) 0 (len arr - 1))
    as (r & Hrun & Hr); [unfold len; lia..|].
  exists r. split; [by apply (returns_from _ _ (S (length arr)))|]. split.
  - intros x y Hxy. destruct (Hr x y Hxy) as (i & j & _ & ? & _ & ?).
    by exists i, j.
  - intros Hshort. destruct r as [[x y]|]; [|done].
    destruct (Hr x y eq_refl) as (i & j & _ & Hij & Hj & _).
    unfold len in Hj. lia.
Qed.

(** The statement above on an unsorted list and on a one-element list. *)
Lemma two_sum_sorted_sound_witness :
  (∃ r,
      returns (λ fuel, two_sum_sorted fuel [4; 1; 3] 7) r ∧
      ∀ x y : Z, r = Some (x, y) → x + y = 7) ∧
  returns (λ fuel, two_sum_sorted fuel [6] 6) None.
Proof.
  split.
  - destruct (two_sum_sorted_sound [4; 1; 3] 7) as (r & Hret & Hr & _).
    exists r. split; [exact Hret|].
    intros x y Hxy. destruct (Hr x y Hxy) as (i & j & _ & _ & _ & Hsum).
    exact Hsum.
  - destruct (two_sum_sorted_sound [6] 6) as (r & Hret & _ & Hshort).
    rewrite Hshort in Hret; [exact Hret|cbn; lia].
Defined.

(** On a sorted list the pair found is the outermost one. *)
Lemma two_sum_loop_outermost (arr : list Z) (target : Z) :
  Sorted Z.le arr →
  ∀ (n : nat) (left right : Z),
    0 ≤ left → right < len arr → right - left ≤ Z.of_nat n →
    ∃ r,
      (∀ fuel, (n < fuel)%nat →
         two_sum_loop fuel arr target left right = Ok r) ∧
      ∀ x y : Z,
        r = Some (x, y) →
        ∃ i0 j0 : nat,
          arr !! i0 = Some x ∧ arr !! j0 = Some y ∧
          ∀ (i j : nat) (xi yj : Z),
            left ≤ Z.of_nat i → (i < j)%nat → Z.of_nat j ≤ right →
            arr !! i = Some xi → arr !! j = Some yj → xi + yj = target →
            (i0 ≤ i)%nat ∧ (j ≤ j0)%nat.
Proof.
  intros Hsorted.
  induction n as [|n IH]; intros left right Hl Hr Hn;
    (destruct (Z.ltb_spec left right) as [Hlr|Hlr];
     [|exists None; split;
       [intros [|fuel] ?; [lia|]; cbn [two_sum_loop]; by zbool|done]]);
    [lia|].
  destruct (getitem_in_range arr left) as (x & Hx & Hgx); [lia|].
  destruct (getitem_in_range arr right) as (y & Hy & Hgy); [lia|].
  assert (Hstep : ∀ fuel,
    two_sum_loop (S fuel) arr target left right =
    if x + y =? target then Ok (Some (x, y))
    else if x + y <? target then two_sum_loop fuel arr target (left + 1) right
    else two_sum_loop fuel arr target left (right - 1)).
  { intros fuel. cbn [two_sum_loop].
    by rewrite (proj2 (Z.ltb_lt _ _) Hlr), Hgx, Hgy. }
  destruct (Z.eqb_spec (x + y) target) as [Heq|Hne].
  { exists (Some (x, y)). split.
    - intros [|fuel] ?; [lia|]. by rewrite Hstep.
    - intros x' y' [= <- <-].
      exists (Z.to_nat left), (Z.to_nat right). split; [done|]. split; [done|].
      intros; lia. }
  destruct (Z.ltb_spec (x + y) target) as [Hlt|Hge].
  - destruct (IH (left + 1) right) as (r & Hrun & Hr'); [lia..|].
    exists r. split.
    + intros [|fuel] ?; [lia|]. rewrite Hstep. apply Hrun. lia.
    + intros x' y' Hxy. destruct (Hr' x' y' Hxy) as (i0 & j0 & Hi0 & Hj0 & Hout).
      exists i0, j0. split; [done|]. split; [done|].
      intros i j xi yj Hi Hij Hj Hxi Hyj Hsum.
      destruct (decide (Z.of_nat i = left)) as [Hil|Hil];
        [|apply (Hout i j xi yj); [lia|done..]].
      exfalso. subst left. rewrite Nat2Z.id in Hx. simplify_eq.
      pose proof (Sorted_lookup_le arr j (Z.to_nat right) yj y Hsorted
                    ltac:(lia) Hyj Hy).
      lia.
  - destruct (IH left (right - 1)) as (r & Hrun & Hr'); [lia..|].
    exists r. split.
    + intros [|fuel] ?; [lia|]. rewrite Hstep. apply Hrun. lia.
    + intros x' y' Hxy. destruct (Hr' x' y' Hxy) as (i0 & j0 & Hi0 & Hj0 & Hout).
      exists i0, j0. split; [done|]. split; [done|].
      intros i j xi yj Hi Hij Hj Hxi Hyj Hsum.
      destruct (decide (Z.of_nat j = right)) as [Hjr|Hjr];
        [|apply (Hout i j xi yj); [done|done|lia|done..]].
      exfalso. subst right. rewrite Nat2Z.id in Hy. simplify_eq.
      pose proof (Sorted_lookup_le arr (Z.to_nat left) i x xi Hsorted
                    ltac:(lia) Hx Hxi).
      lia.
Qed.

(** X5: on a sorted list, the pair returned by [two_sum_sorted] is the
    outermost one: every pair of indices [i < j] whose values sum to
    [target] lies between the two indices of the returned values, so the
    first returned value is at most [arr[i]] and the second at least
    [arr[j]]. *)
Theorem two_sum_sorted_outermost (arr : list Z) (target : Z) :
  Sorted Z.le arr →
  ∃ r,
    returns (λ fuel, two_sum_sorted fuel arr target) r ∧
    ∀ x y : Z,
      r = Some (x, y) →
      ∃ i0 j0 : nat,
        arr !! i0 = Some x ∧ arr !! j0 = Some y ∧
        ∀ (i j : nat) (xi yj : Z),
          (i < j)%nat → arr !! i = Some xi → arr !! j = Some yj →
          xi + yj = target →
          (i0 ≤ i)%nat ∧ (j ≤ j0)%nat ∧ x ≤ xi ∧ yj ≤ y.
Proof.
  intros Hsorted.
  destruct (two_sum_loop_outermost arr target Hsorted (length arr) 0
              (len arr - 1)) as (r & Hrun & Hr); [unfold len; lia..|].
  exists r. split; [by apply (returns_from _ _ (S (length arr)))|].
  intros x y Hxy. destruct (Hr x y Hxy) as (i0 & j0 & Hi0 & Hj0 & Hout).
  exists i0, j0. split; [done|]. split; [done|].
  intros i j xi yj Hij Hxi Hyj Hsum.
  destruct (Hout i j xi yj) as [Hi Hj]; [lia|done| |done|done|done|].
  { apply lookup_lt_Some in Hyj. unfold len. lia. }
  split; [done|]. split; [done|]. split.
  - by apply (Sorted_lookup_le arr i0 i x xi).
  - by apply (Sorted_lookup_le arr j j0 yj y).
Qed.

(** The statement above on a sorted list with two pairs, (1, 9) and (4, 6). *)
Lemma two_sum_sorted_outermost_witness :
  ∃ r,
    returns (λ fuel, two_sum_sorted fuel [1; 4; 6; 9] 10) r ∧
    ∀ x y : Z, r = Some (x, y) → x ≤ 4 ∧ 6 ≤ y.
Proof.
  destruct (two_sum_sorted_outermost [1; 4; 6; 9] 10) as (r & Hret & Hr);
    [repeat constructor; lia|].
  exists r. split; [exact Hret|].
  intros x y Hxy. destruct (Hr x y Hxy) as (i0 & j0 & _ & _ & Hout).
  destruct (Hout 1%nat 2%nat 4 6) as (_ & _ & Hx & Hy);
    [lia|reflexivity|reflexivity|lia|].
  split; [exact Hx|exact Hy].
Defined.

(** ** More on [remove_duplicates] *)





Lemma compress_from_idemp (prev : Z) (l : list Z) :
  compress_from prev (compress_from prev l) = compress_from prev l.
Proof.
  revert prev. induction l as [|x l IH]; intros prev; [done|].
  cbn [compress_from].
  destruct (bool_decide_reflect (x ≠ prev)) as [Hne|Heq].
  - cbn [compress_from]. by rewrite bool_decide_eq_true_2, IH.
  - apply dec_stable in Heq. subst x. apply IH.
Qed.

Lemma compress_idemp (l : list Z) : compress (compress l) = compress l.
Proof.
  destruct l as [|x l]; [done|]. cbn [compress]. by rewrite compress_from_idemp.
Qed.



(** X7: [remove_duplicates] is idempotent: a second call on the returned
    prefix returns the same length and leaves the prefix as it is. *)
Theorem remove_duplicates_idempotent (arr : list Z) :
  ∃ (n : Z) (arr' : list Z),
    remove_duplicates arr = Ok (n, arr') ∧
    remove_duplicates (take (Z.to_nat n) arr')
      = Ok (n, take (Z.to_nat n) arr').
Proof.
  exists (Z.of_nat (length (compress arr))),
    (compress arr ++ drop (length (compress arr)) arr).
  split; [apply remove_duplicates_result|].
  rewrite Nat2Z.id, take_app_length, remove_duplicates_result, compress_idemp.
  by rewrite drop_all, app_nil_r.
Qed.

(** ** More on [merge_sorted_arrays] *)

Lemma merge_lists_sublist_l (a b : list Z) : sublist a (merge_lists a b).
Proof.
  revert b. induction a as [|x a' IHa]; intros b; [apply sublist_nil_l|].
  induction b as [|y b' IHb]; [by rewrite merge_lists_nil_r|].
  rewrite merge_lists_cons. destruct (x <? y).
  - apply sublist_skip, IHa.
  - apply sublist_cons, IHb.
Qed.

Lemma merge_lists_sublist_r (a b : list Z) : sublist b (merge_lists a b).
Proof.
  revert b. induction a as [|x a' IHa]; intros b;
    [by rewrite merge_lists_nil_l|].
  induction b as [|y b' IHb]; [apply sublist_nil_l|].
  rewrite merge_lists_cons. destruct (x <? y).
  - apply sublist_cons, IHa.
  - apply sublist_skip, IHb.
Qed.

(** Two ascending lists with the same elements are the same list. *)
Lemma sorted_perm_eq (l1 l2 : list Z) :
  StronglySorted Z.le l1 → StronglySorted Z.le l2 → l1 ≡ₚ l2 → l1 = l2.
Proof.
  intros Hl1. revert l2. induction Hl1 as [|x1 l1 Hl1 IH Hx1]; intros l2 Hl2 E.
  { symmetry. by apply Permutation_nil. }
  destruct Hl2 as [|x2 l2 Hl2 Hx2].
  { by apply Permutation_nil_r in E. }
  rewrite Forall_forall in Hx1, Hx2.
  assert (x1 = x2) as ->.
  { assert (x2 ∈ x1 :: l1) as Hin2 by (rewrite E; apply elem_of_cons; by left).
    assert (x1 ∈ x2 :: l2) as Hin1 by (rewrite <- E; apply elem_of_cons; by left).
    apply elem_of_cons in Hin1 as [->|Hin1]; [done|].
    apply elem_of_cons in Hin2 as [->|Hin2]; [done|].
    specialize (Hx1 x2 Hin2). specialize (Hx2 x1 Hin1). lia. }
  f_equal. apply IH; [done|]. by apply (Permutation_cons_inv (a := x2)).
Qed.

Lemma Sorted_le_strong (l : list Z) : Sorted Z.le l → StronglySorted Z.le l.
Proof. apply Sorted_StronglySorted. intros ???; lia. Qed.

(** X8: on all lists, sorted or not, [merge_sorted_arrays] keeps the order
    inside each input: both inputs are subsequences of the output.  With an
    empty operand the output is the other operand, unchanged. *)
Theorem merge_keeps_order :
  (∀ a b : list Z,
      ∃ out,
        returns (λ fuel, merge_sorted_arrays fuel a b) out ∧
        sublist a out ∧ sublist b out) ∧
  (∀ b : list Z, returns (λ fuel, merge_sorted_arrays fuel [] b) b) ∧
  (∀ a : list Z, returns (λ fuel, merge_sorted_arrays fuel a []) a).
Proof.
  split; [|split].
  - intros a b. exists (merge_lists a b).
    split; [apply merge_sorted_arrays_returns|].
    split; [apply merge_lists_sublist_l|apply merge_lists_sublist_r].
  - intros b. pose proof (merge_sorted_arrays_returns [] b) as Hret.
    by rewrite merge_lists_nil_l in Hret.
  - intros a. pose proof (merge_sorted_arrays_returns a []) as Hret.
    by rewrite merge_lists_nil_r in Hret.
Qed.

(** X9: on lists sorted ascending the merge does not depend on the order of
    the operands nor on the grouping of three merges: merging [a] with [b]
    and [b] with [a] return the same list, and merging the merge of [a] and
    [b] with [c] returns the same list as merging [a] with the merge of [b]
    and [c]. *)
Theorem merge_sorted_comm_assoc (a b c : list Z) :
  Sorted Z.le a → Sorted Z.le b → Sorted Z.le c →
  (∃ out,
      returns (λ fuel, merge_sorted_arrays fuel a b) out ∧
      returns (λ fuel, merge_sorted_arrays fuel b a) out) ∧
  (∃ ab bc out,
      returns (λ fuel, merge_sorted_arrays fuel a b) ab ∧
      returns (λ fuel, merge_sorted_arrays fuel b c) bc ∧
      returns (λ fuel, merge_sorted_arrays fuel ab c) out ∧
      returns (λ fuel, merge_sorted_arrays fuel a bc) out).
Proof.
  intros Ha%Sorted_le_strong Hb%Sorted_le_strong Hc%Sorted_le_strong. split.
  - exists (merge_lists a b). split; [apply merge_sorted_arrays_returns|].
    replace (merge_lists a b) with (merge_lists b a);
      [apply merge_sorted_arrays_returns|].
    apply sorted_perm_eq; [by apply merge_lists_sorted..|].
    rewrite !merge_lists_perm. apply Permutation_app_comm.
  - exists (merge_lists a b), (merge_lists b c),
      (merge_lists (merge_lists a b) c).
    split; [apply merge_sorted_arrays_returns|].
    split; [apply merge_sorted_arrays_returns|].
    split; [apply merge_sorted_arrays_returns|].
    replace (merge_lists (merge_lists a b) c)
      with (merge_lists a (merge_lists b c));
      [apply merge_sorted_arrays_returns|].
    apply sorted_perm_eq;
      [by repeat apply merge_lists_sorted..|].
    rewrite !merge_lists_perm. by rewrite app_assoc.
Qed.

(** The statement above on the lists of the unit tests. *)
Lemma merge_sorted_comm_assoc_witness :
  ∃ out,
    returns (λ fuel, merge_sorted_arrays fuel [1; 3; 5] [2; 4; 6]) out ∧
    returns (λ fuel, merge_sorted_arrays fuel [2; 4; 6] [1; 3; 5]) out.
Proof.
  apply (merge_sorted_comm_assoc [1; 3; 5] [2; 4; 6] []);
    repeat constructor; lia.
Defined.

(** ** How the linked-list operations relate *)

Lemma on_cycle_valid (h : store) (p : loc) : on_cycle h p → valid h (Some p).
Proof.
  intros (k & Hk & Hback). destruct k as [|k]; [lia|].
  unfold walk in Hback. rewrite Nat.iter_succ_r in Hback.
  cbn. destruct (h !! p) as [nd|] eqn:Hp; [done|].
  cbn in Hback. rewrite Hp in Hback. cbn in Hback.
  fold (walk h k None) in Hback. by rewrite walk_None in Hback.
Qed.

(** Without a cycle the walk from [head] ends after some least number of
    links, the number of nodes of the list. *)
Lemma acyclic_length (h : store) (head : ref) :
  (∀ k, valid h (walk h k head)) → ¬ cyclic h head →
  ∃ n : nat,
    walk h n head = None ∧ ∀ k, (k < n)%nat → is_Some (walk h k head).
Proof.
  intros Hwalk Hno.
  destruct (ends_or_cyclic h head Hwalk) as [Hend|Hcyc]; [|done].
  destruct (least_nat (λ n, walk h n head = None) (size h) Hend)
    as (n & Hn & _ & Hleast).
  exists n. split; [done|]. intros k Hk. specialize (Hleast k Hk).
  by destruct (walk h k head).
Qed.

(** X10: in a closed store [has_cycle] and [detect_cycle_start] agree:
    [has_cycle] returns true exactly when [detect_cycle_start] returns a
    node, and false exactly when it returns [None]. *)
Theorem has_cycle_agrees_with_detect (h : store) (head : ref) :
  closed h → valid h head →
  ∃ (b : bool) (r : ref),
    returns (λ fuel, has_cycle fuel h head) b ∧
    returns (λ fuel, detect_cycle_start fuel h head) r ∧
    (b = true ↔ is_Some r).
Proof.
  intros Hc Hv. pose proof (closed_walk_valid h head Hc Hv) as Hwalk.
  destruct (ends_or_cyclic h head Hwalk) as [Hend|Hcyc].
  - exists false, None.
    split; [by apply (has_cycle_ends h head Hwalk (size h))|].
    split; [by apply (detect_cycle_start_ends h head Hwalk (size h))|].
    split; [done|]. by intros [? ?].
  - destruct (detect_cycle_start_cyclic h head Hwalk Hcyc) as (e & Hret & _).
    exists true, (Some e). split; [by apply has_cycle_cyclic|].
    split; [done|]. split; [by eexists|done].
Qed.

(** The statement above on the two structures of the unit tests. *)
Lemma has_cycle_agrees_with_detect_witness :
  (∃ (b : bool) (r : ref),
      returns (λ fuel, has_cycle fuel store_ring (Some 0%nat)) b ∧
      returns (λ fuel, detect_cycle_start fuel store_ring (Some 0%nat)) r ∧
      (b = true ↔ is_Some r)) ∧
  (∃ (b : bool) (r : ref),
      returns (λ fuel, has_cycle fuel store_two (Some 0%nat)) b ∧
      returns (λ fuel, detect_cycle_start fuel store_two (Some 0%nat)) r ∧
      (b = true ↔ is_Some r)).
Proof.
  split.
  - apply (has_cycle_agrees_with_detect store_ring (Some 0%nat));
      apply store_ring_closed.
  - apply (has_cycle_agrees_with_detect store_two (Some 0%nat));
      apply store_two_closed.
Defined.

(** X11: when the head itself lies on a cycle (the structure is a ring
    through the head), [detect_cycle_start] returns the head. *)
Theorem detect_cycle_start_ring (h : store) (p : loc) :
  closed h → on_cycle h p →
  returns (λ fuel, detect_cycle_start fuel h (Some p)) (Some p).
Proof.
  intros Hc Hon.
  pose proof (closed_walk_valid h (Some p) Hc (on_cycle_valid h p Hon))
    as Hwalk.
  assert (Hcyc : cyclic h (Some p)) by (by exists 0%nat, p).
  destruct (detect_cycle_start_cyclic h (Some p) Hwalk Hcyc) as (e & Hret & He).
  replace e with p in Hret; [done|].
  apply (cycle_entry_unique h (Some p)); [|done].
  exists 0%nat. split; [done|]. split; [done|]. intros; lia.
Qed.

(** The statement above on the one-node ring. *)
Lemma detect_cycle_start_ring_witness :
  returns (λ fuel, detect_cycle_start fuel store_self (Some 0%nat))
    (Some 0%nat).
Proof.
  apply (detect_cycle_start_ring store_self 0%nat).
  - apply (bool_decide_unpack _). by vm_compute.
  - exists 1%nat. split; [lia|reflexivity].
Defined.

(** X12: [has_cycle] tells whether [find_middle] can be called: in a closed
    store, if [has_cycle] returns false then [find_middle] returns the node
    [n / 2] links from the head, where [n] is the number of nodes of the
    list ([None] for an empty list); if [has_cycle] returns true then
    [find_middle] runs forever. *)
Theorem has_cycle_guards_find_middle (h : store) (head : ref) :
  closed h → valid h head →
  (returns (λ fuel, has_cycle fuel h head) false →
   ∃ n : nat,
     walk h n head = None ∧
     (∀ k, (k < n)%nat → is_Some (walk h k head)) ∧
     returns (λ fuel, find_middle fuel h head) (walk h (n / 2) head)) ∧
  (returns (λ fuel, has_cycle fuel h head) true →
   diverges (λ fuel, find_middle fuel h head)).
Proof.
  intros Hc Hv. pose proof (closed_walk_valid h head Hc Hv) as Hwalk. split.
  - intros Hfalse.
    destruct (acyclic_length h head Hwalk) as (n & Hn & Hbefore).
    { intros Hcyc.
      pose proof (returns_inj _ _ _ Hfalse (has_cycle_cyclic h head Hwalk Hcyc)).
      done. }
    exists n. split; [done|]. split; [done|].
    by apply find_middle_ends.
  - intros Htrue. apply find_middle_cyclic; [done|].
    destruct (ends_or_cyclic h head Hwalk) as [Hend|Hcyc]; [|done].
    pose proof (returns_inj _ _ _ Htrue
                  (has_cycle_ends h head Hwalk (size h) Hend)).
    done.
Qed.

(** The statement above on the two structures of the unit tests. *)
Lemma has_cycle_guards_find_middle_witness :
  diverges (λ fuel, find_middle fuel store_ring (Some 0%nat)) ∧
  ∃ n : nat,
    walk store_two n (Some 0%nat) = None ∧
    returns (λ fuel, find_middle fuel store_two (Some 0%nat))
      (walk store_two (n / 2) (Some 0%nat)).
Proof.
  split.
  - apply (has_cycle_guards_find_middle store_ring (Some 0%nat));
      [apply store_ring_closed..|].
    apply has_cycle_cyclic; [|apply store_ring_cyclic].
    apply closed_walk_valid; apply store_ring_closed.
  - destruct (has_cycle_guards_find_middle store_two (Some 0%nat))
      as [Hmid _]; [apply store_two_closed..|].
    destruct Hmid as (n & Hn & _ & Hret).
    + apply (has_cycle_ends store_two (Some 0%nat)) with (n := 2%nat);
        [|reflexivity].
      apply closed_walk_valid; apply store_two_closed.
    + by exists n.
Defined.

(** ** More on [length_of_longest_substring] *)

(** The two properties of the result determine it. *)
Lemma longest_unique (l : list ascii) (m m' : nat) :
  (∃ i, (i + m ≤ length l)%nat ∧ NoDup (window l i m)) →
  (∀ i n, (i + n ≤ length l)%nat → NoDup (window l i n) → (n ≤ m)%nat) →
  (∃ i, (i + m' ≤ length l)%nat ∧ NoDup (window l i m')) →
  (∀ i n, (i + n ≤ length l)%nat → NoDup (window l i n) → (n ≤ m')%nat) →
  m = m'.
Proof.
  intros (i & Hi & Hnd) Hmax (i' & Hi' & Hnd') Hmax'.
  pose proof (Hmax i' m' Hi' Hnd'). pose proof (Hmax' i m Hi Hnd). lia.
Qed.

Lemma window_all {A} (l : list A) : window l 0 (length l) = l.
Proof. unfold window. by rewrite drop_0, firstn_all. Qed.

(** Every window is a window that fits inside the list. *)
Lemma window_exact {A} (l : list A) (i n : nat) :
  ∃ i' : nat,
    (i' + length (window l i n) ≤ length l)%nat ∧
    window l i' (length (window l i n)) = window l i n.
Proof.
  destruct (decide (i ≤ length l)%nat) as [Hi|Hi].
  - exists i. unfold window. rewrite length_take, length_drop. split; [lia|].
    rewrite <- (take_ge (drop i l) (length l - i)) at 2
      by (rewrite length_drop; lia).
    by rewrite take_take.
  - exists 0%nat. unfold window. rewrite (drop_ge l i) by lia.
    rewrite take_nil. cbn. split; [lia|]. by rewrite take_0.
Qed.

Lemma window_app {A} (l1 l2 : list A) (i n : nat) :
  window (l1 ++ l2) i n =
  window l1 i n ++
    window l2 (i - length l1) (n - length (drop i l1)).
Proof. unfold window. by rewrite drop_app, take_app. Qed.

Lemma window_app_l {A} (l1 l2 : list A) (i n : nat) :
  (i + n ≤ length l1)%nat → window (l1 ++ l2) i n = window l1 i n.
Proof.
  intros Hin. rewrite window_app.
  replace (n - length (drop i l1))%nat with 0%nat
    by (rewrite length_drop; lia).
  unfold window at 2. by rewrite take_0, app_nil_r.
Qed.

Lemma window_app_r {A} (l1 l2 : list A) (i n : nat) :
  window (l1 ++ l2) (length l1 + i) n = window l2 i n.
Proof. unfold window. by rewrite drop_app_add. Qed.

Lemma window_reverse {A} (l : list A) (i n : nat) :
  (i + n ≤ length l)%nat →
  window (reverse l) i n = reverse (window l (length l - i - n) n).
Proof.
  intros Hin. unfold window.
  rewrite drop_reverse, take_reverse, length_take_le by lia.
  rewrite take_drop_commute. do 3 f_equal. lia.
Qed.

Lemma list_ascii_of_string_app (s t : string) :
  list_ascii_of_string (s ++ t)
    = list_ascii_of_string s ++ list_ascii_of_string t.
Proof.
  induction s as [|c s IH]; [done|].
  change (c :: list_ascii_of_string (s ++ t)
          = c :: (list_ascii_of_string s ++ list_ascii_of_string t)).
  by rewrite IH.
Qed.

(** X13: on a non-empty string the result is at least 1, and the result is
    the length of the whole string exactly when all characters of the string
    are distinct. *)
Theorem length_of_longest_substring_whole (s : string) :
  ∃ m : nat,
    returns (λ fuel, length_of_longest_substring fuel s) (Z.of_nat m) ∧
    (s ≠ EmptyString → (1 ≤ m)%nat) ∧
    (m = String.length s ↔ NoDup (list_ascii_of_string s)).
Proof.
  destruct (length_of_longest_substring_spec s)
    as (m & Hrun & (i & Hi & Hnd) & Hmax).
  cbv zeta in Hrun, Hi, Hnd, Hmax.
  set (l := list_ascii_of_string s) in *.
  exists m. split; [by apply (returns_from _ _ (S (length l)))|]. split.
  - intros Hne. destruct s as [|c s]; [done|].
    apply (Hmax 0%nat 1%nat); [cbn; lia|].
    cbn. apply NoDup_singleton.
  - rewrite string_length_list. fold l. split.
    + intros ->. assert (i = 0)%nat as -> by lia.
      by rewrite window_all in Hnd.
    + intros Hall. pose proof (Hmax 0%nat (length l) ltac:(lia)) as Hle.
      rewrite window_all in Hle. specialize (Hle Hall). lia.
Qed.

(** The statement above on strings with and without a repeated character. *)
Lemma length_of_longest_substring_whole_witness :
  returns (λ fuel, length_of_longest_substring fuel "abc") 3 ∧
  ∃ m : nat,
    returns (λ fuel, length_of_longest_substring fuel "aba") (Z.of_nat m) ∧
    (1 ≤ m)%nat.
Proof.
  split.
  - destruct (length_of_longest_substring_whole "abc") as (m & Hret & _ & Hall).
    replace m with 3%nat in Hret; [exact Hret|].
    symmetry. apply Hall. apply (bool_decide_unpack _). by vm_compute.
  - destruct (length_of_longest_substring_whole "aba") as (m & Hret & Hpos & _).
    exists m. split; [exact Hret|]. by apply Hpos.
Defined.

(** X14: for two strings [s] and [t], the result on the concatenation
    [s ++ t] is at least the result on [s] and the result on [t], and at
    most their sum. *)
Theorem length_of_longest_substring_app (s t : string) :
  ∃ m1 m2 m : nat,
    returns (λ fuel, length_of_longest_substring fuel s) (Z.of_nat m1) ∧
    returns (λ fuel, length_of_longest_substring fuel t) (Z.of_nat m2) ∧
    returns (λ fuel, length_of_longest_substring fuel (s ++ t))
      (Z.of_nat m) ∧
    (m1 ≤ m)%nat ∧ (m2 ≤ m)%nat ∧ (m ≤ m1 + m2)%nat.
Proof.
  destruct (length_of_longest_substring_spec s)
    as (m1 & Hrun1 & (i1 & Hi1 & Hnd1) & Hmax1).
  destruct (length_of_longest_substring_spec t)
    as (m2 & Hrun2 & (i2 & Hi2 & Hnd2) & Hmax2).
  destruct (length_of_longest_substring_spec (s ++ t))
    as (m & Hrun & (i & Hi & Hnd) & Hmax).
  cbv zeta in *. rewrite list_ascii_of_string_app in Hrun, Hi, Hnd, Hmax.
  set (l1 := list_ascii_of_string s) in *.
  set (l2 := list_ascii_of_string t) in *.
  exists m1, m2, m.
  split; [by apply (returns_from _ _ (S (length l1)))|].
  split; [by apply (returns_from _ _ (S (length l2)))|].
  split; [by apply (returns_from _ _ (S (length (l1 ++ l2))))|].
  rewrite length_app in Hi, Hmax.
  split; [|split].
  - apply (Hmax i1 m1); [lia|]. by rewrite window_app_l.
  - apply (Hmax (length l1 + i2)%nat m2); [lia|]. by rewrite window_app_r.
  - rewrite window_app in Hnd. apply NoDup_app in Hnd as (HndA & _ & HndB).
    assert (HlenAB : length (window (l1 ++ l2) i m) = m)
      by (apply window_length; rewrite length_app; lia).
    rewrite window_app, length_app in HlenAB.
    destruct (window_exact l1 i m) as (ia & Hia & HA).
    destruct (window_exact l2 (i - length l1) (m - length (drop i l1)))
      as (ib & Hib & HB).
    rewrite <- HA in HndA. rewrite <- HB in HndB.
    pose proof (Hmax1 _ _ Hia HndA). pose proof (Hmax2 _ _ Hib HndB). lia.
Qed.

(** X15: reversing a string does not change the length of its longest
    substring without repeated characters: the result on the string returned
    by [reverse_string] is the result on the original string. *)
Theorem length_of_longest_substring_reverse (s : string) :
  ∃ (r : string) (m : Z),
    returns (λ fuel, reverse_string fuel s) r ∧
    returns (λ fuel, length_of_longest_substring fuel s) m ∧
    returns (λ fuel, length_of_longest_substring fuel r) m.
Proof.
  set (r := string_of_list_ascii (reverse (list_ascii_of_string s))).
  destruct (length_of_longest_substring_spec s)
    as (m & Hrun & (i & Hi & Hnd) & Hmax).
  destruct (length_of_longest_substring_spec r)
    as (m' & Hrun' & (i' & Hi' & Hnd') & Hmax').
  cbv zeta in *. subst r.
  rewrite list_ascii_of_string_of_list_ascii in Hrun', Hi', Hnd', Hmax'.
  set (l := list_ascii_of_string s) in *.
  rewrite length_reverse in Hrun', Hi', Hmax'.
  exists (string_of_list_ascii (reverse l)), (Z.of_nat m).
  split; [apply reverse_string_returns|].
  split; [by apply (returns_from _ _ (S (length l)))|].
  replace m with m'; [by apply (returns_from _ _ (S (length l)))|].
  assert (Hle' : (m' ≤ m)%nat).
  { rewrite window_reverse, reverse_Permutation in Hnd' by done.
    apply (Hmax (length l - i' - m')%nat m'); [lia|done]. }
  assert (Hle : (m ≤ m')%nat).
  { apply (Hmax' (length l - i - m)%nat m); [lia|].
    rewrite window_reverse, reverse_Permutation by lia.
    by replace (length l - (length l - i - m) - m)%nat with i by lia. }
  lia.
Qed.

(** ** Calls on the results of calls *)

(** X16: [detect_cycle_start] is idempotent: in a closed store, when it
    returns a node, the call on that node returns the same node. *)
Theorem detect_cycle_start_idempotent (h : store) (head : ref) (e : loc) :
  closed h → valid h head →
  returns (λ fuel, detect_cycle_start fuel h head) (Some e) →
  returns (λ fuel, detect_cycle_start fuel h (Some e)) (Some e).
Proof.
  intros Hc Hv Hret. pose proof (closed_walk_valid h head Hc Hv) as Hwalk.
  destruct (ends_or_cyclic h head Hwalk) as [Hend|Hcyc].
  { pose proof (returns_inj _ _ _ Hret
                  (detect_cycle_start_ends h head Hwalk (size h) Hend)).
    done. }
  destruct (detect_cycle_start_cyclic h head Hwalk Hcyc)
    as (e' & Hret' & (mu & _ & Hon & _)).
  pose proof (returns_inj _ _ _ Hret Hret') as [= ->].
  pose proof (closed_walk_valid h (Some e') Hc (on_cycle_valid h e' Hon))
    as Hwalk'.
  assert (Hcyc' : cyclic h (Some e')) by (by exists 0%nat, e').
  destruct (detect_cycle_start_cyclic h (Some e') Hwalk' Hcyc')
    as (e2 & Hret2 & He2).
  replace e2 with e' in Hret2; [done|].
  apply (cycle_entry_unique h (Some e')); [|done].
  exists 0%nat. split; [done|]. split; [done|]. intros; lia.
Qed.

(** The statement above on the ring of the unit test, whose cycle starts at
    the node with value 2. *)
Lemma detect_cycle_start_idempotent_witness :
  returns (λ fuel, detect_cycle_start fuel store_ring (Some 1%nat))
    (Some 1%nat).
Proof.
  apply (detect_cycle_start_idempotent store_ring (Some 0%nat) 1%nat);
    [apply store_ring_closed..|].
  destruct (detect_cycle_start_cyclic store_ring (Some 0%nat))
    as (e & Hret & He).
  - apply closed_walk_valid; apply store_ring_closed.
  - apply store_ring_cyclic.
  - by rewrite (cycle_entry_unique _ _ _ _ He store_ring_entry) in Hret.
Defined.

(** X17: merging two sorted lists and then removing duplicates gives the
    sorted union: the returned prefix is strictly ascending and holds
    exactly the values that occur in one of the two lists. *)
Theorem merge_then_remove_duplicates (a b : list Z) :
  Sorted Z.le a → Sorted Z.le b →
  ∃ (out : list Z) (n : Z) (arr' : list Z),
    returns (λ fuel, merge_sorted_arrays fuel a b) out ∧
    remove_duplicates out = Ok (n, arr') ∧
    StronglySorted Z.lt (take (Z.to_nat n) arr') ∧
    ∀ x : Z, x ∈ take (Z.to_nat n) arr' ↔ x ∈ a ∨ x ∈ b.
Proof.
  intros Ha Hb.
  exists (merge_lists a b). eexists _, _.
  split; [apply merge_sorted_arrays_returns|].
  split; [apply remove_duplicates_result|].
  rewrite Nat2Z.id, take_app_length. split.
  - apply compress_sorted, StronglySorted_Sorted, merge_lists_sorted;
      by apply Sorted_le_strong.
  - intros x. by rewrite compress_elem, merge_lists_perm, elem_of_app.
Qed.

(** The statement above on two lists that share the values 2 and 3. *)
Lemma merge_then_remove_duplicates_witness :
  ∃ (out : list Z) (n : Z) (arr' : list Z),
    returns (λ fuel, merge_sorted_arrays fuel [1; 2; 3] [2; 3; 4]) out ∧
    remove_duplicates out = Ok (n, arr') ∧
    StronglySorted Z.lt (take (Z.to_nat n) arr') ∧
    ∀ x : Z, x ∈ take (Z.to_nat n) arr' ↔ x ∈ [1; 2; 3] ∨ x ∈ [2; 3; 4].
Proof.
  apply (merge_then_remove_duplicates [1; 2; 3] [2; 3; 4]);
    repeat constructor; lia.
Defined.
